(** * The dynamic stream instantiator of pddlstream

    A shallow embedding of [pddlstream/algorithms/instantiation.py]:
    the unification function [get_mapping] and the class [Instantiator]
    with its methods [_add_instance], [_add_combinations] and [add_atom],
    followed by the properties of the instantiation engine. *)

From stdpp Require Import gmap strings list fin_maps.

Set Default Proof Using "Type".

(** ** Data model *)

(** Objects are opaque hashable values; the engine only compares them. *)
Definition Object := string.

(** An argument of a domain fact: a parameter symbol (a Python string such
    as [?x]) or a literal [Object] constant. *)
Inductive Arg :=
  | Param (p : string)
  | Const (o : Object).

#[global] Instance Arg_eq_dec : EqDecision Arg.
Proof. solve_decision. Defined.

#[global] Instance Arg_countable : Countable Arg.
Proof.
  refine (inj_countable'
    (λ a, match a with Param p => inl p | Const o => inr o end)
    (λ s, match s with inl p => Param p | inr o => Const o end) _).
  by intros [].
Defined.

(** [isinstance(b, Object)] *)
Definition is_Object (b : Arg) : bool :=
  match b with Const _ => true | Param _ => false end.

(** A fact of a stream's domain, the tuple [(prefix, arg, ...)];
    [head_from_fact] turns it into a [Head] with the same two parts, so the
    model uses one record for both. *)
Record Fact := mkFact { get_prefix : string; get_args : list Arg }.

(** [Head(function, args)]: the head of a ground atom. *)
Record Head := mkHead { function : string; args : list Object }.

#[global] Instance Fact_eq_dec : EqDecision Fact.
Proof. solve_decision. Defined.
#[global] Instance Head_eq_dec : EqDecision Head.
Proof. solve_decision. Defined.

#[global] Instance Fact_countable : Countable Fact.
Proof.
  refine (inj_countable' (λ f, (get_prefix f, get_args f))
                         (λ p, mkFact p.1 p.2) _).
  by intros [].
Defined.
#[global] Instance Head_countable : Countable Head.
Proof.
  refine (inj_countable' (λ h, (function h, args h))
                         (λ p, mkHead p.1 p.2) _).
  by intros [].
Defined.

(** Modelled from the spec: [is_atom] of [pddlstream.language.conversion]
    is not among the sources.  Section 4.5 has it accept the well-formed
    ground facts and nothing else; it sees the submitted value alone, not
    the stream declarations.  The model carries its verdict with the
    submitted value. *)
Record Evaluation := mkEvaluation { head : Head; is_atom : bool }.

(** A stream declaration: [name], [inputs] and [domain]. *)
Record Stream := mkStream {
  name : string;
  inputs : list string;
  domain : list Fact
}.

#[global] Instance Stream_eq_dec : EqDecision Stream.
Proof. solve_decision. Defined.
#[global] Instance Stream_countable : Countable Stream.
Proof.
  refine (inj_countable' (λ s, (name s, inputs s, domain s))
                         (λ p, mkStream p.1.1 p.1.2 p.2) _).
  by intros [].
Defined.

(** Modelled from the spec: [Stream.get_instance] is not among the sources.
    Section 6 requires the identity of the instance it returns to be the
    same for the same arguments, and section 3 identifies an instance with
    the pair of its stream and its input objects. *)
Record StreamInstance := get_instance {
  stream : Stream;
  input_objects : list Object
}.

#[global] Instance StreamInstance_eq_dec : EqDecision StreamInstance.
Proof. solve_decision. Defined.
#[global] Instance StreamInstance_countable : Countable StreamInstance.
Proof.
  refine (inj_countable' (λ s, (stream s, input_objects s))
                         (λ p, get_instance p.1 p.2) _).
  by intros [].
Defined.

(** ** Exceptions *)

Inductive exn := AssertionError | KeyError.

Inductive result (A : Type) :=
  | Return (a : A)
  | Raise (e : exn).
Arguments Return {A} a.
Arguments Raise {A} e.

#[global] Instance exn_eq_dec : EqDecision exn.
Proof. solve_decision. Defined.
#[global] Instance result_eq_dec `{EqDecision A} : EqDecision (result A).
Proof. solve_decision. Defined.

Definition rbind {A B} (r : result A) (k : A → result B) : result B :=
  match r with
  | Return a => k a
  | Raise e => Raise e
  end.

(** Modelled from the spec: [safe_zip] of [pddlstream.utils] is not among
    the sources.  Section 4.1 has unification take two sequences of equal
    length and calls a violation a contract violation: the helper asserts
    that the lengths agree and zips. *)
Definition safe_zip {A B} (l1 : list A) (l2 : list B) : result (list (A * B)) :=
  if decide (length l1 = length l2) then Return (zip l1 l2)
  else Raise AssertionError.

(** ** Unification: [get_mapping] *)

(** The dictionary [mapping]: its keys are the arguments of the first
    sequence, parameters and constants alike. *)
Abbreviation Mapping := (gmap Arg Object).

(** The body of the inner loop; [None] is the early [return None]. *)
Definition bind_arg (mapping : Mapping) (arg1 : Arg) (arg2 : Object)
  : option Mapping :=
  if decide (default arg2 (mapping !! arg1) = arg2)
  then Some (<[arg1 := arg2]> mapping)
  else None.

Fixpoint bind_args (mapping : Mapping) (zs : list (Arg * Object))
  : option Mapping :=
  match zs with
  | [] => Some mapping
  | (arg1, arg2) :: zs =>
      match bind_arg mapping arg1 arg2 with
      | Some mapping => bind_args mapping zs
      | None => None
      end
  end.

(** The outer loop over the zipped atoms. *)
Fixpoint get_mapping_loop (mapping : Mapping) (zs : list (Fact * Head))
  : result (option Mapping) :=
  match zs with
  | [] => Return (Some mapping)
  | (a1, a2) :: zs =>
      if decide (get_prefix a1 = function a2) then
        rbind (safe_zip (get_args a1) (args a2)) (λ ps,
          match bind_args mapping ps with
          | Some mapping => get_mapping_loop mapping zs
          | None => Return None
          end)
      else Raise AssertionError
  end.

Definition get_mapping (atoms1 : list Fact) (atoms2 : list Head)
  : result (option Mapping) :=
  rbind (safe_zip atoms1 atoms2) (get_mapping_loop ∅).

(** ** The engine state and its monad *)

(** The fields of [Instantiator].  [atoms_from_domain] is a
    [defaultdict(list)]: a key that was never written reads as the empty
    list, which is how [atoms_at] reads it. *)
Record Instantiator := mkInstantiator {
  streams : list Stream;
  stream_instances : gset StreamInstance;
  stream_queue : list StreamInstance;
  atoms : gset Head;
  atoms_from_domain : gmap (nat * nat) (list Head)
}.

#[global] Instance Instantiator_eq_dec : EqDecision Instantiator.
Proof. solve_decision. Defined.

(** [self.atoms_from_domain[(i, j)]] *)
Definition atoms_at (self : Instantiator) (i j : nat) : list Head :=
  default [] (atoms_from_domain self !! (i, j)).

(** A method: it reads and updates [self] and returns or raises; what it
    did to [self] before raising stays done. *)
Definition M (A : Type) : Type := Instantiator → result A * Instantiator.

Definition ret {A} (a : A) : M A := λ self, (Return a, self).

Definition bind {A B} (m : M A) (k : A → M B) : M B := λ self,
  match m self with
  | (Return a, self) => k a self
  | (Raise e, self) => (Raise e, self)
  end.

Definition lift {A} (r : result A) : M A := λ self, (r, self).

Definition get_self : M Instantiator := λ self, (Return self, self).

Definition modify (f : Instantiator → Instantiator) : M unit :=
  λ self, (Return tt, f self).

Notation "'let*' x ':=' m 'in' k" := (bind m (λ x, k))
  (at level 10, x name, m at level 100, k at level 200, only parsing).
Notation "m ';;' k" := (bind m (λ _, k))
  (at level 100, k at level 200, only parsing).

(** A [for] loop whose body may [continue] (it returns) or raise. *)
Fixpoint for_each {A} (l : list A) (body : A → M unit) : M unit :=
  match l with
  | [] => ret tt
  | x :: l => body x;; for_each l body
  end.

(** [enumerate(l)], counting from [n]. *)
Fixpoint enumerate_from {A} (n : nat) (l : list A) : list (nat * A) :=
  match l with
  | [] => []
  | x :: l => (n, x) :: enumerate_from (S n) l
  end.
Definition enumerate {A} (l : list A) : list (nat * A) := enumerate_from 0 l.

(** [itertools.product] of the lists in [values]: the tuples in
    lexicographic order, the last list varying fastest. *)
Fixpoint product {A} (values : list (list A)) : list (list A) :=
  match values with
  | [] => [[]]
  | pool :: values =>
      x ← pool; (λ combo, x :: combo) <$> product values
  end.

(** [mapping[p]] *)
Definition getitem (mapping : Mapping) (p : string) : result Object :=
  match mapping !! Param p with
  | Some o => Return o
  | None => Raise KeyError
  end.

(** [tuple(mapping[p] for p in inputs)] *)
Fixpoint getitems (mapping : Mapping) (ps : list string) : result (list Object) :=
  match ps with
  | [] => Return []
  | p :: ps =>
      rbind (getitem mapping p) (λ o,
      rbind (getitems mapping ps) (λ os, Return (o :: os)))
  end.

(** ** The methods of [Instantiator] *)

Definition _add_instance (stream : Stream) (input_objects : list Object)
  : M bool := λ self,
  let stream_instance := get_instance stream input_objects in
  if decide (stream_instance ∈ stream_instances self) then (Return false, self)
  else (Return true,
        mkInstantiator (streams self)
          ({[stream_instance]} ∪ stream_instances self)
          (stream_queue self ++ [stream_instance])
          (atoms self) (atoms_from_domain self)).

Definition _add_combinations (stream : Stream) (values : list (list Head))
  : M unit :=
  let domain := domain stream in
  for_each (product values) (λ combo,
    let* mapping := lift (get_mapping domain combo) in
    match mapping with
    | None => ret tt
    | Some mapping =>
        let* input_objects := lift (getitems mapping (inputs stream)) in
        _add_instance stream input_objects;; ret tt
    end).

(** [self.atoms.add(head)] *)
Definition atoms_add (head : Head) (self : Instantiator) : Instantiator :=
  mkInstantiator (streams self) (stream_instances self) (stream_queue self)
    ({[head]} ∪ atoms self) (atoms_from_domain self).

(** [self.atoms_from_domain[(i, j)].append(head)] *)
Definition domain_append (i j : nat) (head : Head) (self : Instantiator)
  : Instantiator :=
  mkInstantiator (streams self) (stream_instances self) (stream_queue self)
    (atoms self)
    (<[(i, j) := atoms_at self i j ++ [head]]> (atoms_from_domain self)).

(** [any(isinstance(b, Object) and (a != b) for a, b in zs)] *)
Definition constant_differs (zs : list (Object * Arg)) : bool :=
  existsb (λ z, is_Object z.2 && bool_decide (Const z.1 ≠ z.2)) zs.

(** The body of the inner loop of [add_atom], for slot [j] of stream [i]. *)
Definition add_atom_slot (head : Head) (i : nat) (stream : Stream)
    (j : nat) (domain_fact : Fact) : M unit :=
  if decide (function head ≠ get_prefix domain_fact) then ret tt
  else
    let* zs := lift (safe_zip (args head) (get_args domain_fact)) in
    if constant_differs zs then ret tt
    else
      modify (domain_append i j head);;
      let* self := get_self in
      let values :=
        (λ k, if decide (j ≠ k) then atoms_at self i k else [head])
          <$> seq 0 (length (domain stream)) in
      _add_combinations stream values.

Definition add_atom (atom : Evaluation) : M bool :=
  if negb (is_atom atom) then ret false
  else
    let head := head atom in
    let* self := get_self in
    if decide (head ∈ atoms self) then ret false
    else
      modify (atoms_add head);;
      for_each (enumerate (streams self)) (λ '(i, stream),
        for_each (enumerate (domain stream)) (λ '(j, domain_fact),
          add_atom_slot head i stream j domain_fact));;
      ret true.

(** The two loops of [__init__]. *)
Definition add_zero_input_instances (streams : list Stream) : M unit :=
  for_each streams (λ stream,
    if decide (inputs stream = []) then _add_instance stream [];; ret tt
    else ret tt).

(** The second loop; it is also how a caller submits a list of atoms: one
    call of [add_atom] for each, in order, up to the first that raises. *)
Definition add_atoms (evaluations : list Evaluation) : M unit :=
  for_each evaluations (λ atom, add_atom atom;; ret tt).

(** [Instantiator(evaluations, streams)]: whether [__init__] returned, and
    the state it leaves. *)
Definition new_Instantiator (evaluations : list Evaluation)
    (streams : list Stream) : result unit * Instantiator :=
  (add_zero_input_instances streams;; add_atoms evaluations)
  (mkInstantiator streams ∅ [] ∅ ∅).

(** * Notions used by the properties *)

(** ** Unification *)

(** The contract of [get_mapping] on a pair of atoms: the predicates agree
    (the [assert]) and so do the numbers of arguments ([safe_zip]). *)
Definition matched (a1 : Fact) (a2 : Head) : Prop :=
  get_prefix a1 = function a2 ∧ length (get_args a1) = length (args a2).

#[global] Instance matched_dec a1 a2 : Decision (matched a1 a2).
Proof. unfold matched. apply _. Defined.

(** The positional pairs of arguments (domain side, candidate side) that
    the two loops of [get_mapping] visit, in the order of the visit. *)
Definition arg_pairs (atoms1 : list Fact) (atoms2 : list Head)
  : list (Arg * Object) :=
  z ← zip atoms1 atoms2; zip (get_args z.1) (args z.2).

(** No domain-side argument is paired with two different objects. *)
Definition consistent (zs : list (Arg * Object)) : Prop :=
  ∀ t o o', (t, o) ∈ zs → (t, o') ∈ zs → o = o'.

(** The bindings already made do not contradict the pairs to come. *)
Definition agrees (m : Mapping) (zs : list (Arg * Object)) : Prop :=
  ∀ t o o', m !! t = Some o' → (t, o) ∈ zs → o' = o.


(** Renaming the domain-side arguments of a fact. *)
Definition rename_args (ρ : Arg → Arg) (a : Fact) : Fact :=
  mkFact (get_prefix a) (ρ <$> get_args a).

(** Renaming the keys of a mapping. *)
Definition rename_keys (ρ : Arg → Arg) (m : Mapping) : Mapping :=
  kmap (M2 := gmap Arg) ρ m.

(** ** The engine *)

(** What one turn of the loop of [_add_combinations] computes from a
    combination before it calls [_add_instance]: [Return None] is the
    [continue]. *)
Definition combo_instance (stream : Stream) (combo : list Head)
  : result (option StreamInstance) :=
  rbind (get_mapping (domain stream) combo) (λ mapping,
    match mapping with
    | None => Return None
    | Some mapping =>
        rbind (getitems mapping (inputs stream)) (λ input_objects,
          Return (Some (get_instance stream input_objects)))
    end).

(** The filter of [add_atom] lets the head through for the domain fact. *)
Definition slot_ok (head : Head) (domain_fact : Fact) : bool :=
  bool_decide (function head = get_prefix domain_fact)
  && bool_decide (length (args head) = length (get_args domain_fact))
  && negb (constant_differs (zip (args head) (get_args domain_fact))).

(** Same predicate, another number of arguments: [safe_zip] raises. *)
Definition arity_clash (head : Head) (domain_fact : Fact) : Prop :=
  function head = get_prefix domain_fact
  ∧ length (args head) ≠ length (get_args domain_fact).

(** The index lists of the slots of stream [i], and the lists [values]
    that [add_atom] hands to [_add_combinations] for slot [j]. *)
Definition slot_lists (self : Instantiator) (i : nat) (stream : Stream)
  : list (list Head) :=
  (λ k, atoms_at self i k) <$> seq 0 (length (domain stream)).

Definition slot_values (self : Instantiator) (i : nat) (stream : Stream)
    (j : nat) (head : Head) : list (list Head) :=
  (λ k, if decide (j ≠ k) then atoms_at self i k else [head])
    <$> seq 0 (length (domain stream)).

(** [self'] is [self] with the instances [new] enqueued, all of them unseen
    before, and nothing else changed. *)
Definition enqueued (self self' : Instantiator) (new : list StreamInstance)
  : Prop :=
  self' = mkInstantiator (streams self)
            (stream_instances self ∪ list_to_set new)
            (stream_queue self ++ new)
            (atoms self) (atoms_from_domain self)
  ∧ NoDup new ∧ ∀ si, si ∈ new → si ∉ stream_instances self.

(** The state between the two loops of [__init__]. *)
Definition init_state (streams : list Stream) : Instantiator :=
  (add_zero_input_instances streams (mkInstantiator streams ∅ [] ∅ ∅)).2.

(** The states an engine for [streams] goes through: the one after the
    zero-input instances, and the one any call of [add_atom] leaves, whether
    it returned or raised. *)
Inductive reachable (streams : list Stream) : Instantiator → Prop :=
  | reachable_init : reachable streams (init_state streams)
  | reachable_add_atom self atom :
      reachable streams self → reachable streams (add_atom atom self).2.

(** One turn of the loop of [_add_combinations]. *)
Definition add_combination (stream : Stream) (combo : list Head) : M unit :=
  let* mapping := lift (get_mapping (domain stream) combo) in
  match mapping with
  | None => ret tt
  | Some mapping =>
      let* input_objects := lift (getitems mapping (inputs stream)) in
      _add_instance stream input_objects;; ret tt
  end.

(** The instance [__init__] enqueues for a declared stream without
    inputs. *)
Definition zero_input (streams : list Stream) (si : StreamInstance) : Prop :=
  stream si ∈ streams ∧ inputs (stream si) = [] ∧ input_objects si = [].

(** The instance comes from a combination of heads now in the index lists
    of a declared stream, one head per slot. *)
Definition arises (self : Instantiator) (si : StreamInstance) : Prop :=
  ∃ i stream combo,
    streams self !! i = Some stream
    ∧ combo ∈ product (slot_lists self i stream)
    ∧ combo_instance stream combo = Return (Some si).

(** What holds of every state an engine for [ss] goes through. *)
Record sound (ss : list Stream) (self : Instantiator) : Prop := {
  sound_streams : streams self = ss;
  sound_index : ∀ i j h, h ∈ atoms_at self i j →
    h ∈ atoms self
    ∧ ∃ stream domain_fact,
        ss !! i = Some stream ∧ domain stream !! j = Some domain_fact
        ∧ slot_ok h domain_fact = true;
  sound_instances : ∀ si, si ∈ stream_instances self →
    zero_input ss si ∨ arises self si;
  sound_zero : ∀ si, zero_input ss si → si ∈ stream_instances self;
  sound_queue_NoDup : NoDup (stream_queue self);
  sound_queue : ∀ si, si ∈ stream_queue self ↔ si ∈ stream_instances self;
  sound_order : ∃ rest,
    stream_queue self = stream_queue (init_state ss) ++ rest
    ∧ Forall (λ si, input_objects si ≠ []) rest
}.

(** The two nested loops of [add_atom] for a head. *)
Definition add_atom_loops (head : Head) (streams : list Stream) : M unit :=
  for_each (enumerate streams) (λ '(i, stream),
    for_each (enumerate (domain stream)) (λ '(j, domain_fact),
      add_atom_slot head i stream j domain_fact)).

#[global] Instance arity_clash_dec head domain_fact :
  Decision (arity_clash head domain_fact).
Proof. unfold arity_clash. apply _. Defined.

(** Slot [j'] of stream [i'] comes before slot [n] of stream [i] in the
    order in which the loops of [add_atom] visit the slots. *)
Definition visited (i n i' j' : nat) : bool :=
  (i' <? i) || ((i' =? i) && (j' <? n)).

(** The filter of [add_atom] lets the head into slot [j] of stream [i]. *)
Definition slot_okb (ss : list Stream) (head : Head) (i j : nat) : bool :=
  match ss !! i with
  | Some stream =>
      match domain stream !! j with
      | Some domain_fact => slot_ok head domain_fact
      | None => false
      end
  | None => false
  end.

(** Every combination of the heads now in the index lists of a stream has
    gone through [_add_combinations], and none raised.  A stream without
    domain facts has no slot that could trigger [_add_combinations]. *)
Definition complete_instances (self : Instantiator) : Prop :=
  ∀ i stream combo,
    streams self !! i = Some stream → domain stream ≠ [] →
    combo ∈ product (slot_lists self i stream) →
    match combo_instance stream combo with
    | Return None => True
    | Return (Some si) => si ∈ stream_instances self
    | Raise _ => False
    end.

(** What holds of a state as long as no call has raised. *)
Record complete (ss : list Stream) (self : Instantiator) : Prop := {
  complete_index : ∀ i stream j domain_fact h,
    ss !! i = Some stream → domain stream !! j = Some domain_fact →
    h ∈ atoms self → slot_ok h domain_fact = true →
    h ∈ atoms_at self i j;
  complete_arity : ∀ i stream j domain_fact h,
    ss !! i = Some stream → domain stream !! j = Some domain_fact →
    h ∈ atoms self → ¬ arity_clash h domain_fact;
  complete_combos : complete_instances self
}.

(** The set of heads makes [add_atom] raise, whatever the order of
    submission: a head has the predicate of a domain fact and another number
    of arguments ([AssertionError]), or a combination of the heads unifies
    with the domain of a stream and leaves an input of the stream unbound
    ([KeyError]). *)
Definition bad (ss : list Stream) (X : gset Head) : Prop :=
  (∃ h stream domain_fact,
     h ∈ X ∧ stream ∈ ss ∧ domain_fact ∈ domain stream
     ∧ arity_clash h domain_fact)
  ∨ (∃ stream combo e,
       stream ∈ ss ∧ domain stream ≠ []
       ∧ Forall2 (λ h d, h ∈ X ∧ slot_ok h d = true) combo (domain stream)
       ∧ combo_instance stream combo = Raise e).

(** The state of [add_atom] for [head], started in [self0], when its loops
    are about to visit slot [n] of stream [i]. *)
Definition mid (ss : list Stream) (head : Head) (self0 : Instantiator)
    (i n : nat) (self : Instantiator) : Prop :=
  sound ss self
  ∧ atoms self = {[head]} ∪ atoms self0
  ∧ (∀ i' j', atoms_at self i' j'
       = atoms_at self0 i' j'
         ++ (if visited i n i' j' && slot_okb ss head i' j' then [head]
             else []))
  ∧ (∀ i' j' stream domain_fact,
       visited i n i' j' = true → ss !! i' = Some stream →
       domain stream !! j' = Some domain_fact →
       ¬ arity_clash head domain_fact)
  ∧ complete_instances self.

(** The heads of the atoms among the evaluations. *)
Definition heads_of (evaluations : list Evaluation) : gset Head :=
  list_to_set (head <$> filter (λ atom, is_atom atom = true) evaluations).

(** The grounding obligation of the declarations: every input of a stream
    is an argument of one of its domain facts. *)
Definition grounded (ss : list Stream) : Prop :=
  ∀ stream p, stream ∈ ss → p ∈ inputs stream →
    ∃ domain_fact, domain_fact ∈ domain stream
                   ∧ Param p ∈ get_args domain_fact.

(** The heads have the number of arguments of every declared domain fact
    with their predicate. *)
Definition arities_agree (ss : list Stream) (X : gset Head) : Prop :=
  ∀ h stream domain_fact,
    h ∈ X → stream ∈ ss → domain_fact ∈ domain stream →
    function h = get_prefix domain_fact →
    length (args h) = length (get_args domain_fact).

(** The heads [add_atom] accepts from a list of evaluations, in the order
    in which it accepts them: those of atoms, each at its first
    submission. *)
Fixpoint accepted_from (known : list Head) (evaluations : list Evaluation)
  : list Head :=
  match evaluations with
  | [] => known
  | atom :: evaluations =>
      if is_atom atom && bool_decide (head atom ∉ known)
      then accepted_from (known ++ [head atom]) evaluations
      else accepted_from known evaluations
  end.

Definition accepted (evaluations : list Evaluation) : list Head :=
  accepted_from [] evaluations.

(** [self'] is [self] grown: nothing removed, nothing reordered. *)
Definition grows (self self' : Instantiator) : Prop :=
  streams self' = streams self
  ∧ atoms self ⊆ atoms self'
  ∧ stream_instances self ⊆ stream_instances self'
  ∧ stream_queue self `prefix_of` stream_queue self'
  ∧ ∀ i j, atoms_at self i j `prefix_of` atoms_at self' i j.

(** * [examples/drake/run.py]: stepping through trajectories *)

(** What a slice can do: give a list or raise [ValueError]. *)
Inductive sliced (A : Type) :=
  | Sliced (l : list A)
  | ValueError.
Arguments Sliced {A} l.
Arguments ValueError {A}.

(** The elements at the indices [0], [k], [2 k], ... of a list, for a
    positive [k]. *)
Definition every {A} (k : nat) (l : list A) : list A :=
  omap (λ i, l !! (i * k)) (seq 0 (length l)).

(** The extended slice [l[::step]] of Python: every [step]-th element from
    the first one on for a positive step, every [-step]-th from the last one
    back for a negative step, and [ValueError] for step zero. *)
Definition extended_slice {A} (l : list A) (step : Z) : sliced A :=
  match step with
  | Z0 => ValueError
  | Zpos p => Sliced (every (Pos.to_nat p) l)
  | Zneg p => Sliced (every (Pos.to_nat p) (reverse l))
  end.

(** A trajectory: its [path], a list of configurations, and the rest of the
    object, which [step_trajectories] does not touch. *)
Record Trajectory (Conf Other : Type) := mkTrajectory {
  path : list Conf;
  other : Other
}.
Arguments mkTrajectory {Conf Other} path other.
Arguments path {Conf Other} _.
Arguments other {Conf Other} _.

(** What [step_trajectories] does to the outside: [diagram.Publish], a
    prompt of [user_input], a [time.sleep]. *)
Inductive event (Time : Type) :=
  | Publish
  | user_input (prompt : string)
  | sleep (time_step : Time).
Arguments Publish {Time}.
Arguments user_input {Time} prompt.
Arguments sleep {Time} time_step.

(** The body of the inner loop, once for each value that [traj.iterate]
    yields. *)
Definition step_events {Time} (time_step : option Time) : list (event Time) :=
  [Publish; match time_step with
            | None => user_input "Continue?"
            | Some t => sleep t
            end].

(** The loop over the trajectories: the events, the trajectories as the
    loop leaves them (their paths are assigned to in place), and whether the
    slice raised.  [iterate traj] is the number of values that the generator
    [traj.iterate(context)], which is not among the sources, yields. *)
Fixpoint step_loop {Conf Other Time}
    (iterate : Trajectory Conf Other → nat)
    (trajectories : list (Trajectory Conf Other))
    (time_step : option Time) (teleport : bool)
  : list (event Time) * list (Trajectory Conf Other) * bool :=
  match trajectories with
  | [] => ([], [], true)
  | traj :: trajectories =>
      match (if teleport
             then extended_slice (path traj)
                    (Z.of_nat (length (path traj)) - 1)
             else Sliced (path traj)) with
      | ValueError => ([], traj :: trajectories, false)
      | Sliced p =>
          let traj := mkTrajectory p (other traj) in
          let '(events, trajectories, returned) :=
            step_loop iterate trajectories time_step teleport in
          (mjoin (replicate (iterate traj) (step_events time_step)) ++ events,
           traj :: trajectories, returned)
      end
  end.

(** [step_trajectories]: the events in order, the trajectories afterwards,
    and [true] when it returned, [false] when it raised [ValueError]. *)
Definition step_trajectories {Conf Other Time}
    (iterate : Trajectory Conf Other → nat)
    (trajectories : list (Trajectory Conf Other))
    (time_step : option Time) (teleport : bool)
  : list (event Time) * list (Trajectory Conf Other) * bool :=
  let '(events, trajectories, returned) :=
    step_loop iterate trajectories time_step teleport in
  ([Publish; user_input "Step?"] ++ events
   ++ (if returned then [user_input "Finish?"] else []),
   trajectories, returned).

Definition is_Publish {Time} (e : event Time) : bool :=
  match e with Publish => true | _ => false end.

(** The path with which teleporting replaces [path]: its first and its last
    configuration. *)
Definition endpoints {A} (path : list A) : list A :=
  take 1 path ++ drop (length path - 1) path.
(** * Properties *)

(** ** Unification *)

Section unification.
Implicit Types (m : Mapping) (zs : list (Arg * Object)).

Lemma bind_arg_Some m t o m' :
  bind_arg m t o = Some m' ↔
  (∀ o', m !! t = Some o' → o' = o) ∧ m' = <[t := o]> m.
Proof.
  unfold bind_arg. case_decide as Hd; split.
  - intros [= <-]. split; [|done]. intros o' Ho'. by rewrite Ho' in Hd.
  - by intros [_ ->].
  - done.
  - intros [Hm _]. destruct (m !! t) as [o'|] eqn:E; simpl in Hd.
    + by specialize (Hm o' eq_refl).
    + done.
Qed.

Lemma bind_args_app m zs1 zs2 :
  bind_args m (zs1 ++ zs2) = bind_args m zs1 ≫= λ m', bind_args m' zs2.
Proof.
  revert m. induction zs1 as [|[t o] zs1 IH]; intros m; simpl; [done|].
  destruct (bind_arg m t o); simpl; auto.
Qed.

(** A successful run has bound exactly the pairs it went through, on top
    of what was bound before, and nothing contradicted anything. *)
Lemma bind_args_Some m zs m' :
  bind_args m zs = Some m' →
  agrees m zs ∧ consistent zs ∧
  ∀ t o, m' !! t = Some o ↔ m !! t = Some o ∨ (t, o) ∈ zs.
Proof.
  revert m. induction zs as [|[t o] zs IH]; intros m; simpl.
  - intros [= <-]. split_and!.
    + intros t o o' _ Hin. by apply elem_of_nil in Hin.
    + intros t o o' Hin. by apply elem_of_nil in Hin.
    + intros t o. rewrite elem_of_nil. naive_solver.
  - destruct (bind_arg m t o) as [m1|] eqn:E; [|done].
    apply bind_arg_Some in E as [Hm ->]. intros H.
    apply IH in H as (Hag & Hco & Hm').
    assert (Hzs : ∀ o', (t, o') ∈ zs → o = o').
    { intros o' Hin. apply (Hag t o' o); [|done]. by rewrite lookup_insert_eq. }
    split_and!.
    + intros t1 o1 o1' Hl Hin. apply elem_of_cons in Hin as [E1|Hin].
      { simplify_eq. by apply Hm. }
      apply (Hag t1 o1 o1'); [|done].
      destruct (decide (t = t1)) as [->|Hne].
      * rewrite (Hm _ Hl). by rewrite lookup_insert_eq, (Hzs _ Hin).
      * by rewrite lookup_insert_ne.
    + intros t1 o1 o2 H1 H2.
      apply elem_of_cons in H1 as [E1|H1], H2 as [E2|H2]; simplify_eq.
      * done.
      * by apply Hzs.
      * symmetry. by apply Hzs.
      * by apply (Hco t1).
    + intros t1 o1. rewrite Hm', elem_of_cons.
      destruct (decide (t = t1)) as [->|Hne].
      * rewrite lookup_insert_eq. split.
        -- intros [E1|Hin]; [simplify_eq; by right; left|by right; right].
        -- intros [Hl|[E1|Hin]]; [|simplify_eq; by left|by right].
           left. by rewrite (Hm _ Hl).
      * rewrite lookup_insert_ne by done. naive_solver.
Qed.

(** Conversely, without a contradiction the run succeeds. *)
Lemma bind_args_is_Some m zs :
  agrees m zs → consistent zs → is_Some (bind_args m zs).
Proof.
  revert m. induction zs as [|[t o] zs IH]; intros m Hag Hco; simpl; [by eexists|].
  assert (E : bind_arg m t o = Some (<[t := o]> m)).
  { apply bind_arg_Some. split; [|done]. intros o' Hl.
    apply (Hag t o o' Hl). by left. }
  rewrite E. apply IH.
  - intros t1 o1 o1' Hl Hin. destruct (decide (t = t1)) as [->|Hne].
    + rewrite lookup_insert_eq in Hl. injection Hl as <-.
      apply (Hco t1); [by left|by right].
    + rewrite lookup_insert_ne in Hl by done.
      apply (Hag t1 o1 o1' Hl). by right.
  - intros t1 o1 o2 H1 H2. apply (Hco t1); by right.
Qed.

Lemma bind_args_None m zs :
  bind_args m zs = None ↔ ¬ (agrees m zs ∧ consistent zs).
Proof.
  split.
  - intros E [Hag Hco]. destruct (bind_args_is_Some m zs Hag Hco) as [? ?].
    congruence.
  - intros Hn. destruct (bind_args m zs) as [m'|] eqn:E; [|done].
    destruct Hn. apply bind_args_Some in E. naive_solver.
Qed.

Lemma agrees_empty zs : agrees ∅ zs.
Proof. intros t o o'. by rewrite lookup_empty. Qed.

(** On matched atoms the two loops are one pass of [bind_args] over the
    positional pairs. *)
Lemma get_mapping_loop_matched m (zs : list (Fact * Head)) :
  Forall (λ z, matched z.1 z.2) zs →
  get_mapping_loop m zs
  = Return (bind_args m (z ← zs; zip (get_args z.1) (args z.2))).
Proof.
  intros H. revert m. induction H as [|[a1 a2] zs [Hp Hl] _ IH]; intros m; [done|].
  simpl in *. rewrite decide_True by done. unfold safe_zip.
  rewrite decide_True by done. simpl. rewrite bind_args_app.
  destruct (bind_args m _) as [m1|]; simpl; [apply IH|done].
Qed.

Lemma get_mapping_matched atoms1 atoms2 :
  Forall2 matched atoms1 atoms2 →
  get_mapping atoms1 atoms2 = Return (bind_args ∅ (arg_pairs atoms1 atoms2)).
Proof.
  intros H. unfold get_mapping, safe_zip.
  rewrite decide_True by (by eapply Forall2_length). simpl.
  apply get_mapping_loop_matched.
  induction H; simpl; by constructor.
Qed.
End unification.

Section unification_claims.
Implicit Types (m : Mapping) (zs : list (Arg * Object)).

Lemma arg_pairs_cons a1 atoms1 a2 atoms2 :
  arg_pairs (a1 :: atoms1) (a2 :: atoms2)
  = zip (get_args a1) (args a2) ++ arg_pairs atoms1 atoms2.
Proof. done. Qed.

(** Every argument of a matched domain fact heads a positional pair. *)
Lemma arg_pairs_covers atoms1 atoms2 a1 t :
  Forall2 matched atoms1 atoms2 → a1 ∈ atoms1 → t ∈ get_args a1 →
  ∃ o, (t, o) ∈ arg_pairs atoms1 atoms2.
Proof.
  induction 1 as [|b1 b2 atoms1 atoms2 [_ Hlen] _ IH]; intros Hin Ht.
  - by apply elem_of_nil in Hin.
  - rewrite arg_pairs_cons. apply elem_of_cons in Hin as [->|Hin].
    + apply list_elem_of_lookup in Ht as [k Hk].
      destruct (lookup_lt_is_Some_2 (args b2) k) as [o Ho].
      { rewrite <-Hlen. by eapply lookup_lt_Some. }
      exists o. apply elem_of_app. left.
      apply list_elem_of_lookup. exists k.
      by rewrite lookup_zip_with, Hk, Ho.
    + destruct (IH Hin Ht) as [o Ho]. exists o. apply elem_of_app. by right.
Qed.

Lemma get_mapping_Some atoms1 atoms2 m :
  Forall2 matched atoms1 atoms2 →
  get_mapping atoms1 atoms2 = Return (Some m) →
  consistent (arg_pairs atoms1 atoms2) ∧
  ∀ t o, m !! t = Some o ↔ (t, o) ∈ arg_pairs atoms1 atoms2.
Proof.
  intros H. rewrite (get_mapping_matched _ _ H). intros [= E].
  apply bind_args_Some in E as (_ & Hco & Hm). split; [done|].
  intros t o. rewrite Hm, lookup_empty. naive_solver.
Qed.

Lemma get_mapping_consistent atoms1 atoms2 :
  Forall2 matched atoms1 atoms2 →
  consistent (arg_pairs atoms1 atoms2) →
  ∃ m, get_mapping atoms1 atoms2 = Return (Some m).
Proof.
  intros H Hco. rewrite (get_mapping_matched _ _ H).
  destruct (bind_args_is_Some ∅ _ (agrees_empty _) Hco) as [m ->]. by exists m.
Qed.

Lemma get_mapping_conflict atoms1 atoms2 :
  Forall2 matched atoms1 atoms2 →
  ¬ consistent (arg_pairs atoms1 atoms2) →
  get_mapping atoms1 atoms2 = Return None.
Proof.
  intros H Hco. rewrite (get_mapping_matched _ _ H). f_equal.
  apply bind_args_None. by intros [_ ?].
Qed.

Lemma zip_rename_l {A B C} (f : A → C) (l : list A) (k : list B) :
  prod_map f id <$> zip l k = zip (f <$> l) k.
Proof.
  revert k. induction l as [|x l IH]; intros [|y k]; simpl; try done.
  by rewrite IH.
Qed.

Lemma bind_args_rename (ρ : Arg → Arg) `{!Inj (=) (=) ρ} m zs :
  bind_args (rename_keys ρ m) (prod_map ρ id <$> zs)
  = rename_keys ρ <$> bind_args m zs.
Proof.
  unfold rename_keys.
  revert m. induction zs as [|[t o] zs IH]; intros m; simpl; [done|].
  unfold bind_arg. rewrite lookup_kmap by done.
  case_decide; simpl; [|done]. by rewrite <-kmap_insert, IH.
Qed.

Lemma get_mapping_loop_rename (ρ : Arg → Arg) `{!Inj (=) (=) ρ} m
    (zs : list (Fact * Head)) :
  get_mapping_loop (rename_keys ρ m) (prod_map (rename_args ρ) id <$> zs)
  = rbind (get_mapping_loop m zs) (λ r, Return (rename_keys ρ <$> r)).
Proof.
  revert m. induction zs as [|[a1 a2] zs IH]; intros m; simpl; [done|].
  case_decide; [|done]. unfold safe_zip. rewrite length_fmap.
  case_decide; simpl; [|done].
  rewrite <-zip_rename_l, bind_args_rename by done.
  destruct (bind_args m _); simpl; [apply IH|done].
Qed.
End unification_claims.

(** C8, with the argument counts made explicit.  Unification is
    all-or-nothing on equal-length sequences of pairwise matched atoms, that
    is, atoms with pairwise equal predicates and pairwise equal numbers of
    arguments: [get_mapping] returns, it returns failure exactly when two
    positions pair one domain-side argument with two different objects, and
    otherwise one mapping that binds every argument of every domain fact,
    each to the object at its position.  No partial mapping is returned. *)
Theorem get_mapping_all_or_nothing atoms1 atoms2 :
  Forall2 matched atoms1 atoms2 →
  (get_mapping atoms1 atoms2 = Return None
   ∨ ∃ m, get_mapping atoms1 atoms2 = Return (Some m)
        ∧ (∀ a1 t, a1 ∈ atoms1 → t ∈ get_args a1 → is_Some (m !! t))
        ∧ (∀ t o, (t, o) ∈ arg_pairs atoms1 atoms2 → m !! t = Some o))
  ∧ (∀ t o o', (t, o) ∈ arg_pairs atoms1 atoms2 →
               (t, o') ∈ arg_pairs atoms1 atoms2 → o ≠ o' →
               get_mapping atoms1 atoms2 = Return None).
Proof.
  intros H. split.
  - destruct (get_mapping atoms1 atoms2) as [[m|]|e] eqn:E.
    + right. exists m. destruct (get_mapping_Some _ _ _ H E) as [_ Hm].
      split_and!; [done| |].
      * intros a1 t Ha Ht.
        destruct (arg_pairs_covers _ _ _ _ H Ha Ht) as [o Ho].
        exists o. by apply Hm.
      * intros t o. apply Hm.
    + by left.
    + by rewrite (get_mapping_matched _ _ H) in E.
  - intros t o o' Ho Ho' Hne. apply get_mapping_conflict; [done|].
    intros Hco. apply Hne. by apply (Hco t).
Qed.

Lemma get_mapping_all_or_nothing_witness :
  Forall2 matched
    [mkFact "Pred" [Param "?x"]; mkFact "Pred2" [Param "?x"; Param "?y"]]
    [mkHead "Pred" ["a"]; mkHead "Pred2" ["b"; "c"]]
  ∧ get_mapping
      [mkFact "Pred" [Param "?x"]; mkFact "Pred2" [Param "?x"; Param "?y"]]
      [mkHead "Pred" ["a"]; mkHead "Pred2" ["b"; "c"]] = Return None.
Proof.
  assert (H : Forall2 matched
    [mkFact "Pred" [Param "?x"]; mkFact "Pred2" [Param "?x"; Param "?y"]]
    [mkHead "Pred" ["a"]; mkHead "Pred2" ["b"; "c"]]).
  { repeat constructor. }
  split; [exact H|].
  apply (proj2 (get_mapping_all_or_nothing _ _ H) (Param "?x") "a" "b").
  - vm_compute. by left.
  - vm_compute. right. by left.
  - done.
Defined.

(** C8 as the specification words it fails: equal lengths and pairwise
    equal predicates are not enough.  On a domain fact with two arguments and
    a candidate atom of the same predicate with one argument [get_mapping]
    returns neither failure nor a mapping; the [safe_zip] of the two argument
    lists raises an assertion error. *)
Lemma get_mapping_arity_mismatch_raises :
  ¬ (∀ atoms1 atoms2,
       length atoms1 = length atoms2 →
       Forall2 (λ a1 a2, get_prefix a1 = function a2) atoms1 atoms2 →
       get_mapping atoms1 atoms2 = Return None
       ∨ ∃ m, get_mapping atoms1 atoms2 = Return (Some m)).
Proof.
  intros H.
  specialize (H [mkFact "P" [Param "?x"; Param "?y"]] [mkHead "P" ["a"]]
                eq_refl).
  assert (E : get_mapping [mkFact "P" [Param "?x"; Param "?y"]]
                          [mkHead "P" ["a"]] = Raise AssertionError)
    by reflexivity.
  rewrite E in H. destruct H as [H|[m H]]; [|discriminate H|discriminate H].
  repeat constructor.
Qed.

(** C4, as the code has it.  On pairwise matched atoms [get_mapping] is one
    pass over the positional pairs of arguments, and at every position it
    reaches, whatever the domain side holds there, a parameter symbol or a
    literal constant: when nothing is bound to the domain-side argument the
    candidate's object gets bound to it, when the same object is bound
    already the mapping stays, and when another object is bound the whole
    unification returns failure.  A constant is never compared with the
    candidate's argument. *)
Theorem get_mapping_position atoms1 atoms2 pre t o post m :
  Forall2 matched atoms1 atoms2 →
  arg_pairs atoms1 atoms2 = pre ++ (t, o) :: post →
  bind_args ∅ pre = Some m →
  get_mapping atoms1 atoms2 = Return (bind_args ∅ (pre ++ (t, o) :: post))
  ∧ match m !! t with
    | None => bind_args ∅ (pre ++ [(t, o)]) = Some (<[t := o]> m)
    | Some o' =>
        if decide (o' = o) then bind_args ∅ (pre ++ [(t, o)]) = Some m
        else get_mapping atoms1 atoms2 = Return None
    end.
Proof.
  intros H Hp Hpre. rewrite (get_mapping_matched _ _ H), Hp.
  split; [done|].
  rewrite !bind_args_app, Hpre. simpl. unfold bind_arg.
  destruct (m !! t) as [o'|] eqn:E; simpl.
  - case_decide as Hd.
    + subst o'. by rewrite insert_id.
    + done.
  - by rewrite decide_True.
Qed.

Lemma get_mapping_position_witness :
  bind_args ∅ ([] ++ [(Const "table1", "table2")])
  = Some (<[Const "table1" := "table2"]> ∅).
Proof.
  assert (H : Forall2 matched [mkFact "On" [Const "table1"; Param "?x"]]
                             [mkHead "On" ["table2"; "a"]]).
  { repeat constructor. }
  exact (proj2 (get_mapping_position
           [mkFact "On" [Const "table1"; Param "?x"]]
           [mkHead "On" ["table2"; "a"]]
           [] (Const "table1") "table2" [(Param "?x", "a")] ∅
           H eq_refl eq_refl)).
Defined.

(** C4 as the specification words it fails: a literal constant on the domain
    side does not have to equal the candidate's argument. *)
Lemma get_mapping_constant_unchecked :
  ¬ (∀ atoms1 atoms2 m, Forall2 matched atoms1 atoms2 →
       get_mapping atoms1 atoms2 = Return (Some m) →
       ∀ c o, (Const c, o) ∈ arg_pairs atoms1 atoms2 → o = c).
Proof.
  intros H.
  specialize (H [mkFact "On" [Param "?x"; Const "table1"]]
                [mkHead "On" ["a"; "table2"]]
                (<[Const "table1" := "table2"]> (<[Param "?x" := "a"]> ∅))).
  assert (E : "table2" = "table1"); [|discriminate E].
  apply H.
  - repeat constructor.
  - reflexivity.
  - vm_compute. right. by left.
Qed.



(** ** Loops *)

Section loops.
Context {A : Type}.
Implicit Types (body : A → M unit) (l : list A).

Lemma for_each_cons x l body self :
  for_each (x :: l) body self =
  match body x self with
  | (Return _, self') => for_each l body self'
  | (Raise e, self') => (Raise e, self')
  end.
Proof. done. Qed.

Lemma for_each_app l1 l2 body self :
  for_each (l1 ++ l2) body self =
  match for_each l1 body self with
  | (Return _, self') => for_each l2 body self'
  | (Raise e, self') => (Raise e, self')
  end.
Proof.
  revert self. induction l1 as [|x l1 IH]; intros self; simpl; [done|].
  unfold bind. destruct (body x self) as [[[]|e] self']; [apply IH|done].
Qed.

(** What every turn preserves, whether it returns or raises, holds when
    the loop is left. *)
Lemma for_each_preserves (I : Instantiator → Prop) l body :
  (∀ x self, x ∈ l → I self → I (body x self).2) →
  ∀ self, I self → I (for_each l body self).2.
Proof.
  induction l as [|x l IH]; intros Hb self HI; simpl; [done|].
  unfold bind. pose proof (Hb x self (list_elem_of_here _ _) HI) as Hx.
  destruct (body x self) as [[[]|e] self']; simpl in *; [|done].
  apply IH; [|done]. intros y s Hy. apply Hb. by right.
Qed.

(** The rule for a loop over [enumerate]: [I k] holds before turn [k],
    [R] when a turn has raised. *)
Lemma for_each_enumerate (I : nat → Instantiator → Prop) (R : Prop)
    l (body : nat * A → M unit) n self :
  (∀ k x self, l !! k = Some x → I (n + k) self →
     match body (n + k, x) self with
     | (Return _, self') => I (S (n + k)) self'
     | (Raise _, _) => R
     end) →
  I n self →
  match for_each (enumerate_from n l) body self with
  | (Return _, self') => I (n + length l) self'
  | (Raise _, _) => R
  end.
Proof.
  revert n self. induction l as [|x l IH]; intros n self Hb HI; simpl.
  - by rewrite Nat.add_0_r.
  - unfold bind. pose proof (Hb 0 x self eq_refl) as Hx.
    rewrite Nat.add_0_r in Hx. specialize (Hx HI).
    destruct (body (n, x) self) as [[[]|e] self']; [|done].
    replace (n + S (length l)) with (S n + length l) by lia.
    apply IH; [|done]. intros k y s Hk. 
    replace (S n + k) with (n + S k) by lia. by apply Hb.
Qed.

(** A turn that raises wherever it starts makes the loop raise. *)
Lemma for_each_raises l body x :
  x ∈ l → (∀ self, ∃ e, (body x self).1 = Raise e) →
  ∀ self, ∃ e, (for_each l body self).1 = Raise e.
Proof.
  induction l as [|y l IH]; intros Hin Hx self.
  - by apply elem_of_nil in Hin.
  - simpl. unfold bind. apply elem_of_cons in Hin as [->|Hin].
    + destruct (Hx self) as [e He].
      destruct (body y self) as [[[]|e'] self']; simpl in *; [done|eauto].
    + destruct (body y self) as [[[]|e'] self']; simpl; [|eauto].
      by apply IH.
Qed.

Lemma elem_of_enumerate_from n l k (x : A) :
  (k, x) ∈ enumerate_from n l ↔ n ≤ k ∧ l !! (k - n) = Some x.
Proof.
  revert n. induction l as [|y l IH]; intros n; simpl.
  - rewrite elem_of_nil. naive_solver.
  - rewrite elem_of_cons, IH. split.
    + intros [[= -> ->]|[Hle Hl]].
      * split; [lia|]. by rewrite Nat.sub_diag.
      * split; [lia|]. by replace (k - n) with (S (k - S n)) by lia.
    + intros [Hle Hl]. destruct (decide (k = n)) as [->|Hne].
      * left. rewrite Nat.sub_diag in Hl. simpl in Hl. congruence.
      * right. split; [lia|].
        by replace (k - n) with (S (k - S n)) in Hl by lia.
Qed.

Lemma elem_of_enumerate l k (x : A) :
  (k, x) ∈ enumerate l ↔ l !! k = Some x.
Proof.
  unfold enumerate. rewrite elem_of_enumerate_from, Nat.sub_0_r.
  naive_solver lia.
Qed.

Lemma elem_of_product (combo : list A) (values : list (list A)) :
  combo ∈ product values ↔ Forall2 (∈) combo values.
Proof.
  revert combo. induction values as [|pool values IH]; intros combo; simpl.
  - rewrite list_elem_of_singleton. split; [by intros ->|].
    by intros ->%Forall2_nil_inv_r.
  - rewrite list_elem_of_bind. split.
    + intros (x & (c & -> & Hc)%list_elem_of_fmap & Hx).
      constructor; [done|]. by apply IH.
    + intros (x & c & Hx & Hc & ->)%Forall2_cons_inv_r.
      exists x. split; [|done]. apply list_elem_of_fmap.
      exists c. split; [done|]. by apply IH.
Qed.
End loops.

(** ** What the methods do to the state *)

Section effects.
Implicit Types (self : Instantiator) (new : list StreamInstance).

Lemma enqueued_nil self : enqueued self self [].
Proof.
  split_and!.
  - destruct self; simpl. f_equal; [set_solver|by rewrite app_nil_r].
  - constructor.
  - intros si Hsi. by apply elem_of_nil in Hsi.
Qed.

Lemma enqueued_app self1 self2 self3 new1 new2 :
  enqueued self1 self2 new1 → enqueued self2 self3 new2 →
  enqueued self1 self3 (new1 ++ new2).
Proof.
  intros (-> & Hnd1 & Hnew1) (-> & Hnd2 & Hnew2). simpl in *. split_and!.
  - f_equal; [|by rewrite app_assoc].
    rewrite list_to_set_app_L. set_solver.
  - apply NoDup_app. split_and!; [done| |done].
    intros si H1 H2. apply (Hnew2 si H2). set_solver.
  - intros si [H1|H2]%elem_of_app; [by apply Hnew1|].
    specialize (Hnew2 si H2). set_solver.
Qed.

Lemma add_instance_enqueued stream input_objects self :
  ∃ b new, (_add_instance stream input_objects self).1 = Return b
    ∧ enqueued self (_add_instance stream input_objects self).2 new
    ∧ (∀ si, si ∈ new → si = get_instance stream input_objects)
    ∧ get_instance stream input_objects
        ∈ stream_instances (_add_instance stream input_objects self).2.
Proof.
  unfold _add_instance. case_decide as Hin; simpl.
  - exists false, []. split_and!; [done|apply enqueued_nil| |done].
    intros si Hsi. by apply elem_of_nil in Hsi.
  - exists true, [get_instance stream input_objects]. split_and!; [done| | |].
    + split_and!.
      * f_equal. set_solver.
      * apply NoDup_singleton.
      * by intros si ->%list_elem_of_singleton.
    + by intros si ->%list_elem_of_singleton.
    + set_solver.
Qed.

Lemma add_instance_then_ret stream input_objects self :
  (_add_instance stream input_objects;; ret tt) self
  = (Return tt, (_add_instance stream input_objects self).2).
Proof.
  unfold bind.
  destruct (add_instance_enqueued stream input_objects self)
    as (b & _ & Hb & _).
  by destruct (_add_instance _ _ self) as [[?|?] ?]; simplify_eq/=.
Qed.

Lemma add_combination_eq stream combo self :
  add_combination stream combo self =
  match combo_instance stream combo with
  | Return None => (Return tt, self)
  | Return (Some si) =>
      (Return tt, (_add_instance stream (input_objects si) self).2)
  | Raise e => (Raise e, self)
  end.
Proof.
  unfold add_combination, combo_instance, bind, lift.
  destruct (get_mapping _ _) as [[m|]|e]; simpl; [|done..].
  destruct (getitems _ _) as [os|e]; simpl; [|done].
  destruct (add_instance_enqueued stream os self) as (b & _ & Hb & _).
  by destruct (_add_instance stream os self) as [[?|?] ?]; simplify_eq/=.
Qed.

Lemma add_combinations_eq stream values :
  _add_combinations stream values
  = for_each (product values) (add_combination stream).
Proof. done. Qed.

(** The loop of [_add_combinations] over any list of combinations. *)
Lemma add_combinations_spec stream (combos : list (list Head)) self :
  ∃ new,
    enqueued self (for_each combos (add_combination stream) self).2 new
    ∧ (∀ si, si ∈ new →
         ∃ c, c ∈ combos ∧ combo_instance stream c = Return (Some si))
    ∧ match (for_each combos (add_combination stream) self).1 with
      | Return _ =>
          ∀ c, c ∈ combos →
            match combo_instance stream c with
            | Return None => True
            | Return (Some si) =>
                si ∈ stream_instances
                       (for_each combos (add_combination stream) self).2
            | Raise _ => False
            end
      | Raise e => ∃ c, c ∈ combos ∧ combo_instance stream c = Raise e
      end.
Proof.
  revert self. induction combos as [|c combos IH]; intros self; simpl.
  - exists []. split_and!; [apply enqueued_nil| |].
    + intros si Hsi. by apply elem_of_nil in Hsi.
    + intros c Hc. by apply elem_of_nil in Hc.
  - unfold bind. rewrite add_combination_eq.
    destruct (combo_instance stream c) as [[si|]|e] eqn:Ec; simpl.
    + destruct (add_instance_enqueued stream (input_objects si) self)
        as (b & new1 & _ & Hen1 & Hnew1 & Hin1).
      set (self1 := (_add_instance stream (input_objects si) self).2) in *.
      destruct (IH self1) as (new2 & Hen2 & Hnew2 & Hres).
      assert (Esi : get_instance stream (input_objects si) = si).
      { unfold combo_instance in Ec.
        destruct (get_mapping _ _) as [[m|]|?]; simpl in Ec; [|done..].
        destruct (getitems _ _); simpl in Ec; [|done]. by injection Ec as <-. }
      rewrite Esi in *.
      exists (new1 ++ new2). split_and!.
      * by eapply enqueued_app.
      * intros si' [H1|H2]%elem_of_app.
        -- rewrite (Hnew1 _ H1). exists c. split; [by left|done].
        -- destruct (Hnew2 _ H2) as (c' & Hc' & E'). exists c'.
           split; [by right|done].
      * destruct (for_each combos _ self1) as [[[]|e] self2] eqn:E2;
          simpl in *.
        -- intros c' [->|Hc']%elem_of_cons; [|by apply Hres].
           rewrite Ec. destruct Hen2 as (-> & _). simpl. set_solver.
        -- destruct Hres as (c' & Hc' & E'). exists c'. split; [by right|done].
    + destruct (IH self) as (new & Hen & Hnew & Hres).
      exists new. split_and!; [done| |].
      * intros si Hsi. destruct (Hnew _ Hsi) as (c' & Hc' & E').
        exists c'. split; [by right|done].
      * destruct (for_each combos _ self) as [[[]|e] self2] eqn:E2;
          simpl in *.
        -- intros c' [->|Hc']%elem_of_cons; [by rewrite Ec|by apply Hres].
        -- destruct Hres as (c' & Hc' & E'). exists c'. split; [by right|done].
    + exists []. split_and!; [apply enqueued_nil| |].
      * intros si Hsi. by apply elem_of_nil in Hsi.
      * exists c. split; [by left|done].
Qed.
End effects.

(** ** One slot of [add_atom] *)

Section slot.
Implicit Types (self : Instantiator) (head : Head) (domain_fact : Fact).

Lemma slot_ok_true head domain_fact :
  slot_ok head domain_fact = true ↔
  function head = get_prefix domain_fact
  ∧ length (args head) = length (get_args domain_fact)
  ∧ constant_differs (zip (args head) (get_args domain_fact)) = false.
Proof.
  unfold slot_ok.
  rewrite !andb_true_iff, !bool_decide_eq_true, negb_true_iff.
  naive_solver.
Qed.

Lemma slot_ok_not_clash head domain_fact :
  slot_ok head domain_fact = true → ¬ arity_clash head domain_fact.
Proof. intros (_ & Hl & _)%slot_ok_true [_ Hne]. done. Qed.

Lemma add_atom_slot_clash head i stream j domain_fact self :
  arity_clash head domain_fact →
  add_atom_slot head i stream j domain_fact self
  = (Raise AssertionError, self).
Proof.
  intros [Hp Hne]. unfold add_atom_slot.
  rewrite decide_False by (by intros ?).
  unfold bind, lift, safe_zip. by rewrite decide_False.
Qed.

Lemma add_atom_slot_skip head i stream j domain_fact self :
  ¬ arity_clash head domain_fact → slot_ok head domain_fact = false →
  add_atom_slot head i stream j domain_fact self = (Return tt, self).
Proof.
  intros Hcl Hok. unfold add_atom_slot. case_decide as Hp; [done|].
  unfold bind at 1, lift, safe_zip.
  case_decide as Hl; [|by destruct Hcl].
  destruct (constant_differs _) eqn:Hc; [done|].
  assert (slot_ok head domain_fact = true); [|congruence].
  by apply slot_ok_true.
Qed.

Lemma add_atom_slot_ok head i stream j domain_fact self :
  slot_ok head domain_fact = true →
  add_atom_slot head i stream j domain_fact self
  = for_each
      (product (slot_values (domain_append i j head self) i stream j head))
      (add_combination stream) (domain_append i j head self).
Proof.
  intros (Hp & Hl & Hc)%slot_ok_true. unfold add_atom_slot.
  rewrite decide_False by (by intros ?).
  unfold bind at 1, lift, safe_zip. rewrite decide_True by done.
  by rewrite Hc.
Qed.

Lemma atoms_at_domain_append i j head self i' j' :
  atoms_at (domain_append i j head self) i' j'
  = if decide ((i, j) = (i', j')) then atoms_at self i j ++ [head]
    else atoms_at self i' j'.
Proof.
  unfold atoms_at at 1. simpl. rewrite lookup_insert.
  by case_decide; simplify_eq.
Qed.

Lemma atoms_at_enqueued self self' new i j :
  enqueued self self' new → atoms_at self' i j = atoms_at self i j.
Proof. by intros (-> & _). Qed.

(** The slot lists and the values, position by position. *)
Lemma elem_of_product_slot_lists self i stream (combo : list Head) :
  combo ∈ product (slot_lists self i stream) ↔
  length combo = length (domain stream)
  ∧ ∀ k h, combo !! k = Some h → h ∈ atoms_at self i k.
Proof.
  rewrite elem_of_product, Forall2_same_length_lookup. unfold slot_lists.
  rewrite length_fmap, length_seq. split; intros [Hlen H]; (split; [done|]).
  - intros k h Hk. apply (H k h (atoms_at self i k) Hk).
    rewrite list_lookup_fmap, lookup_seq_lt; [done|].
    rewrite <-Hlen. by eapply lookup_lt_Some.
  - intros k h L Hk HL. rewrite list_lookup_fmap in HL.
    destruct (seq 0 _ !! k) as [k'|] eqn:E; [|done].
    apply lookup_seq in E as [-> _]. simpl in HL. injection HL as <-.
    by apply H.
Qed.

Lemma elem_of_product_slot_values self i stream j head
    (combo : list Head) :
  combo ∈ product (slot_values self i stream j head) ↔
  length combo = length (domain stream)
  ∧ ∀ k h, combo !! k = Some h →
      if decide (j ≠ k) then h ∈ atoms_at self i k else h = head.
Proof.
  rewrite elem_of_product, Forall2_same_length_lookup. unfold slot_values.
  rewrite length_fmap, length_seq. split; intros [Hlen H]; (split; [done|]).
  - intros k h Hk.
    assert (Hv : ((λ k, if decide (j ≠ k) then atoms_at self i k
                        else [head]) <$> seq 0 (length (domain stream)))
                 !! k = Some (if decide (j ≠ k) then atoms_at self i k
                              else [head])).
    { rewrite list_lookup_fmap, lookup_seq_lt; [done|].
      rewrite <-Hlen. by eapply lookup_lt_Some. }
    specialize (H k h _ Hk Hv). case_decide; [done|].
    by apply list_elem_of_singleton in H.
  - intros k h L Hk HL. rewrite list_lookup_fmap in HL.
    destruct (seq 0 _ !! k) as [k'|] eqn:E; [|done].
    apply lookup_seq in E as [-> _]. simpl in HL. injection HL as <-.
    specialize (H k h Hk). case_decide; [done|].
    by apply list_elem_of_singleton.
Qed.
End slot.

(** ** What holds of every state *)

Section soundness.
Implicit Types (self : Instantiator) (ss : list Stream).

Lemma getitems_length (m : Mapping) ps os :
  getitems m ps = Return os → length os = length ps.
Proof.
  revert os. induction ps as [|p ps IH]; intros os; simpl.
  - by intros [= <-].
  - destruct (getitem m p); simpl; [|done].
    destruct (getitems m ps) as [os'|]; simpl; [|done].
    intros [= <-]. simpl. f_equal. by apply IH.
Qed.

Lemma combo_instance_Some st combo si :
  combo_instance st combo = Return (Some si) →
  st = stream si ∧ length (input_objects si) = length (inputs st).
Proof.
  unfold combo_instance.
  destruct (get_mapping _ _) as [[m|]|?]; simpl; [|done..].
  destruct (getitems _ _) as [os|] eqn:E; simpl; [|done].
  intros [= <-]. simpl. split; [done|]. by eapply getitems_length.
Qed.

Lemma arises_mono self self' si :
  streams self' = streams self →
  (∀ i k h, h ∈ atoms_at self i k → h ∈ atoms_at self' i k) →
  arises self si → arises self' si.
Proof.
  intros Hs Hat (i & st & c & Hi & Hc & E). exists i, st, c.
  rewrite Hs. split_and!; [done| |done].
  apply elem_of_product_slot_lists in Hc as [Hlen Hc].
  apply elem_of_product_slot_lists. split; [done|]. eauto.
Qed.

Lemma add_atom_eq atom self :
  add_atom atom self =
  if negb (is_atom atom) then (Return false, self)
  else if decide (head atom ∈ atoms self) then (Return false, self)
  else
    let r := add_atom_loops (head atom) (streams self)
               (atoms_add (head atom) self) in
    (match r.1 with Return _ => Return true | Raise e => Raise e end, r.2).
Proof.
  unfold add_atom. destruct (is_atom atom); simpl; [|done].
  unfold bind at 1, get_self. case_decide; [done|].
  unfold bind at 1, modify. unfold bind at 1. fold (add_atom_loops (head atom) (streams self)).
  by destruct (add_atom_loops _ _ _) as [[[]|e] s'].
Qed.

Lemma sound_atoms_add ss self head :
  sound ss self → sound ss (atoms_add head self).
Proof.
  intros [H1 H2 H3 H4 H5 H6 H7]. split; simpl; try done.
  intros i j h Hh. destruct (H2 i j h Hh) as [? ?]. split; [set_solver|done].
Qed.

Lemma sound_domain_append ss self i j head stream domain_fact :
  sound ss self → head ∈ atoms self →
  ss !! i = Some stream → domain stream !! j = Some domain_fact →
  slot_ok head domain_fact = true →
  sound ss (domain_append i j head self).
Proof.
  intros [H1 H2 H3 H4 H5 H6 H7] Hh Hi Hj Hok. split; simpl; try done.
  - intros i' j' h. rewrite atoms_at_domain_append.
    case_decide as Hd; [|apply H2]. injection Hd as <- <-.
    intros [Hin| ->%list_elem_of_singleton]%elem_of_app; [by apply H2|].
    split; [done|]. by exists stream, domain_fact.
  - intros si Hsi. destruct (H3 si Hsi) as [?|Har]; [by left|right].
    eapply arises_mono; [| |done]; [done|].
    intros i' k h. rewrite atoms_at_domain_append.
    case_decide as Hd; [|done]. injection Hd as <- <-.
    intros ?. apply elem_of_app. by left.
Qed.

Lemma sound_enqueued ss self self' new :
  sound ss self → enqueued self self' new →
  (∀ si, si ∈ new → arises self si) →
  sound ss self'.
Proof.
  intros [H1 H2 H3 H4 H5 H6 H7] (-> & Hnd & Hnew) Har.
  split; simpl; try done.
  - intros si [Hsi|Hsi%elem_of_list_to_set]%elem_of_union.
    + destruct (H3 si Hsi) as [?|?]; [by left|right].
      by eapply arises_mono.
    + right. eapply arises_mono; [| |by apply Har]; done.
  - intros si Hsi. apply elem_of_union. left. by apply H4.
  - apply NoDup_app. split_and!; [done| |done].
    intros si Hq Hn. apply (Hnew si Hn). by apply H6.
  - intros si. rewrite elem_of_app, elem_of_union, elem_of_list_to_set, H6.
    done.
  - destruct H7 as (rest & Hq & Hrest). exists (rest ++ new).
    rewrite Hq, app_assoc. split; [done|].
    apply Forall_app. split; [done|]. apply Forall_forall.
    intros si Hsi Hnil. apply (Hnew si Hsi). apply H4.
    destruct (Har si Hsi) as (i & st & c & Hi & _ & E).
    apply combo_instance_Some in E as [-> Hlen].
    rewrite Hnil in Hlen. simpl in Hlen.
    split_and!; [|by destruct (inputs _)|done].
    rewrite <-H1. by eapply list_elem_of_lookup_2.
Qed.

Lemma sound_add_atom_slot ss self head i stream j domain_fact :
  sound ss self → head ∈ atoms self →
  ss !! i = Some stream → domain stream !! j = Some domain_fact →
  sound ss (add_atom_slot head i stream j domain_fact self).2
  ∧ atoms (add_atom_slot head i stream j domain_fact self).2 = atoms self.
Proof.
  intros Hs Hh Hi Hj.
  destruct (slot_ok head domain_fact) eqn:Hok.
  - rewrite add_atom_slot_ok by done.
    pose proof (sound_domain_append _ _ _ _ _ _ _ Hs Hh Hi Hj Hok) as Hs1.
    set (self1 := domain_append i j head self) in *.
    destruct (add_combinations_spec stream
                (product (slot_values self1 i stream j head)) self1)
      as (new & Hen & Hnew & _).
    split; [|by destruct Hen as (-> & _)].
    eapply sound_enqueued; [done..|].
    intros si Hsi. destruct (Hnew si Hsi) as (c & Hc & E).
    exists i, stream, c. rewrite (sound_streams _ _ Hs1).
    split_and!; [done| |done].
    apply elem_of_product_slot_values in Hc as [Hlen Hc].
    apply elem_of_product_slot_lists. split; [done|].
    intros k h Hk. specialize (Hc k h Hk). case_decide as Hd; [done|].
    subst k h. unfold self1.
    rewrite atoms_at_domain_append, decide_True by done.
    apply elem_of_app. right. by apply list_elem_of_singleton.
  - destruct (decide (arity_clash head domain_fact)).
    + by rewrite add_atom_slot_clash.
    + by rewrite add_atom_slot_skip.
Qed.

Lemma sound_add_atom_loops ss self head :
  sound ss self → head ∈ atoms self →
  sound ss (add_atom_loops head ss self).2
  ∧ atoms (add_atom_loops head ss self).2 = atoms self.
Proof.
  intros Hs Hh. unfold add_atom_loops.
  apply (for_each_preserves
           (λ s, sound ss s ∧ atoms s = atoms self)); [|done].
  intros [i st] s Hi%elem_of_enumerate [Hs' Ha'].
  apply (for_each_preserves
           (λ s, sound ss s ∧ atoms s = atoms self)); [|done].
  intros [j d] s1 Hj%elem_of_enumerate [Hs1 Ha1].
  destruct (sound_add_atom_slot ss s1 head i st j d) as [? ?]; try done.
  - by rewrite Ha1.
  - split; [done|]. congruence.
Qed.

Lemma sound_add_atom ss self atom :
  sound ss self → sound ss (add_atom atom self).2.
Proof.
  intros Hs. rewrite add_atom_eq. destruct (is_atom atom); simpl; [|done].
  case_decide; [done|]. simpl.
  rewrite (sound_streams _ _ Hs).
  apply sound_add_atom_loops; [by apply sound_atoms_add|].
  simpl. set_solver.
Qed.
End soundness.

(** ** Construction and reachable states *)

Section construction.
Implicit Types (self : Instantiator) (ss : list Stream).

Lemma add_zero_input_instances_spec (l : list Stream) self :
  (add_zero_input_instances l self).1 = Return tt
  ∧ ∃ new, enqueued self (add_zero_input_instances l self).2 new
      ∧ (∀ si, si ∈ new →
           stream si ∈ l ∧ inputs (stream si) = [] ∧ input_objects si = [])
      ∧ ∀ st, st ∈ l → inputs st = [] →
          get_instance st []
            ∈ stream_instances (add_zero_input_instances l self).2.
Proof.
  unfold add_zero_input_instances.
  revert self. induction l as [|st l IH]; intros self.
  - split; [done|]. exists []. split_and!; [apply enqueued_nil| |].
    + intros si Hsi. by apply elem_of_nil in Hsi.
    + intros st Hst. by apply elem_of_nil in Hst.
  - rewrite for_each_cons. case_decide as Hin.
    + rewrite add_instance_then_ret.
      destruct (add_instance_enqueued st [] self)
        as (b & new1 & _ & Hen1 & Hnew1 & Hin1).
      set (self1 := (_add_instance st [] self).2) in *.
      destruct (IH self1) as (Hr & new2 & Hen2 & Hnew2 & Hall).
      split; [done|]. exists (new1 ++ new2). split_and!.
      * by eapply enqueued_app.
      * intros si [H1|H2]%elem_of_app.
        -- rewrite (Hnew1 si H1). simpl. split; [by left|done].
        -- destruct (Hnew2 si H2) as (? & ? & ?). split; [by right|done].
      * intros st' [->|Hst']%elem_of_cons Hnil; [|by apply Hall].
        destruct Hen2 as (-> & _). simpl. set_solver.
    + unfold ret at 1. destruct (IH self) as (Hr & new & Hen & Hnew & Hall).
      split; [done|]. exists new. split_and!; [done| |].
      * intros si Hsi. destruct (Hnew si Hsi) as (? & ? & ?).
        split; [by right|done].
      * intros st' [->|Hst']%elem_of_cons Hnil; [done|by apply Hall].
Qed.

Lemma sound_init_state ss : sound ss (init_state ss).
Proof.
  destruct (add_zero_input_instances_spec ss (mkInstantiator ss ∅ [] ∅ ∅))
    as (_ & new & (Heq & Hnd & _) & Hnew & Hall).
  fold (init_state ss) in Heq, Hall. simpl in Heq.
  split; [rewrite Heq; simpl..|].
  - done.
  - intros i j h Hh. unfold atoms_at in Hh. simpl in Hh.
    rewrite lookup_empty in Hh. by apply elem_of_nil in Hh.
  - intros si Hsi. left. apply Hnew. set_solver.
  - intros [st os] (Hst & Hnil & Hos). simpl in *. subst os.
    specialize (Hall st Hst Hnil). by rewrite Heq in Hall.
  - done.
  - intros si. set_solver.
  - exists []. split; [by rewrite app_nil_r|done].
Qed.

Lemma reachable_sound ss self : reachable ss self → sound ss self.
Proof.
  induction 1; [apply sound_init_state|by apply sound_add_atom].
Qed.

Lemma add_atom_then_ret atom self :
  (add_atom atom;; ret tt) self
  = (match (add_atom atom self).1 with
     | Return _ => Return tt
     | Raise e => Raise e
     end, (add_atom atom self).2).
Proof. unfold bind. by destruct (add_atom atom self) as [[?|?] ?]. Qed.

Lemma reachable_add_atoms ss evaluations self :
  reachable ss self → reachable ss (add_atoms evaluations self).2.
Proof.
  unfold add_atoms. apply for_each_preserves.
  intros atom s _ Hs. rewrite add_atom_then_ret. simpl. by constructor.
Qed.

Lemma new_Instantiator_eq evaluations ss :
  new_Instantiator evaluations ss = add_atoms evaluations (init_state ss).
Proof.
  unfold new_Instantiator, init_state, bind.
  destruct (add_zero_input_instances_spec ss (mkInstantiator ss ∅ [] ∅ ∅))
    as (Hr & _).
  destruct (add_zero_input_instances ss _) as [r s]. simpl in *. by subst r.
Qed.

Lemma reachable_new_Instantiator evaluations ss :
  reachable ss (new_Instantiator evaluations ss).2.
Proof.
  rewrite new_Instantiator_eq. apply reachable_add_atoms. constructor.
Qed.

Lemma filter_none {A} (P : A → Prop) `{!∀ x, Decision (P x)} (l : list A) :
  (∀ y, y ∈ l → ¬ P y) → filter P l = [].
Proof.
  induction l as [|y l IH]; intros Hall; [done|].
  rewrite filter_cons_False by (apply Hall; by left).
  apply IH. intros z Hz. apply Hall. by right.
Qed.

Lemma filter_unique {A} (P : A → Prop) `{!∀ x, Decision (P x)}
    (l : list A) x :
  NoDup l → x ∈ l → P x → (∀ y, y ∈ l → P y → y = x) →
  filter P l = [x].
Proof.
  induction 1 as [|y l Hy Hnd IH]; intros Hin HP Hall.
  - by apply elem_of_nil in Hin.
  - assert (Hnone : x ∉ l → filter P l = []).
    { intros Hx. apply filter_none.
      intros z Hz HPz. rewrite (Hall z) in Hz by (by right || done). done. }
    apply elem_of_cons in Hin as [->|Hin].
    + rewrite filter_cons_True by done. f_equal. by apply Hnone.
    + rewrite filter_cons_False.
      * apply IH; [done..|]. intros z Hz. apply Hall. by right.
      * intros HPy. rewrite (Hall y) in Hy by (by left || done). done.
Qed.

Lemma slot_ok_constant head domain_fact k c :
  slot_ok head domain_fact = true →
  get_args domain_fact !! k = Some (Const c) →
  args head !! k = Some c.
Proof.
  intros (_ & Hlen & Hc)%slot_ok_true Hk.
  destruct (lookup_lt_is_Some_2 (args head) k) as [a Ha].
  { rewrite Hlen. by eapply lookup_lt_Some. }
  rewrite Ha. f_equal. destruct (decide (a = c)) as [|Hne]; [done|].
  assert (constant_differs (zip (args head) (get_args domain_fact)) = true);
    [|congruence].
  unfold constant_differs. apply existsb_exists. exists (a, Const c). split.
  - apply list_elem_of_In, list_elem_of_lookup. exists k.
    by rewrite lookup_zip_with, Ha, Hk.
  - simpl. apply bool_decide_eq_true. congruence.
Qed.
End construction.

(** ** The engine: what holds whatever is submitted *)

Lemma sound_input_length ss self si :
  sound ss self → si ∈ stream_instances self →
  stream si ∈ ss ∧ length (input_objects si) = length (inputs (stream si)).
Proof.
  intros Hs Hsi. destruct (sound_instances _ _ Hs si Hsi)
    as [(Hst & Hin & Hos)|(i & st & c & Hi & _ & E)].
  - split; [done|]. by rewrite Hin, Hos.
  - apply combo_instance_Some in E as [-> Hlen]. split; [|done].
    rewrite (sound_streams _ _ Hs) in Hi. by eapply list_elem_of_lookup_2.
Qed.

(** C7.  A declared stream without inputs has one instance in the queue, the
    one with no input objects, and has it once, in every state of the engine:
    [__init__] enqueues it before it submits anything, and no later call of
    [add_atom], returning or raising, enqueues another instance of that
    stream. *)
Theorem zero_input_enqueued_once ss st self :
  st ∈ ss → inputs st = [] → reachable ss self →
  get_instance st [] ∈ stream_queue (init_state ss)
  ∧ filter (λ si, stream si = st) (stream_queue self) = [get_instance st []].
Proof.
  intros Hst Hnil Hr.
  assert (Hz : zero_input ss (get_instance st [])) by done.
  split.
  - pose proof (sound_init_state ss) as Hs0.
    apply (sound_queue _ _ Hs0), (sound_zero _ _ Hs0), Hz.
  - apply reachable_sound in Hr as Hs.
    apply filter_unique.
    + apply (sound_queue_NoDup _ _ Hs).
    + apply (sound_queue _ _ Hs), (sound_zero _ _ Hs), Hz.
    + done.
    + intros [st' os] Hin Hst'. simpl in Hst'. subst st'.
      apply (sound_queue _ _ Hs) in Hin.
      destruct (sound_input_length _ _ _ Hs Hin) as [_ Hlen]. simpl in Hlen.
      rewrite Hnil in Hlen. by destruct os.
Qed.

Lemma zero_input_enqueued_once_witness :
  filter (λ si, stream si = mkStream "sample" [] [mkFact "Obj" [Param "?x"]])
    (stream_queue
       (new_Instantiator
          [mkEvaluation (mkHead "Obj" ["a"]) true;
           mkEvaluation (mkHead "Obj" ["b"]) true]
          [mkStream "sample" [] [mkFact "Obj" [Param "?x"]]]).2)
  = [get_instance (mkStream "sample" [] [mkFact "Obj" [Param "?x"]]) []].
Proof.
  apply (zero_input_enqueued_once
           [mkStream "sample" [] [mkFact "Obj" [Param "?x"]]]).
  - by left.
  - reflexivity.
  - apply reachable_new_Instantiator.
Defined.


(** C5.  In every state of the engine, for a slot whose domain fact holds a
    literal constant at some position: the heads in the index list of the
    slot are submitted heads that have the predicate of the domain fact and
    that very constant at the position, and every enqueued instance, those
    of the streams without inputs aside, comes from a combination that takes
    for each slot of its stream a submitted head out of the index list of
    that slot, a head that passed the filter of the slot and so agrees with
    every constant of the domain fact of the slot; the head taken for this
    slot holds the constant too. *)
Theorem constants_enforced ss self i j st domain_fact k c :
  reachable ss self →
  ss !! i = Some st → domain st !! j = Some domain_fact →
  get_args domain_fact !! k = Some (Const c) →
  (∀ h, h ∈ atoms_at self i j →
     function h = get_prefix domain_fact ∧ args h !! k = Some c)
  ∧ (∀ h, h ∈ atoms_at self i j → h ∈ atoms self)
  ∧ (∀ si, si ∈ stream_queue self →
       zero_input ss si
       ∨ ∃ i' st' combo,
           ss !! i' = Some st'
           ∧ Forall2 (λ h d, h ∈ atoms self ∧ slot_ok h d = true)
               combo (domain st')
           ∧ (∀ n h, combo !! n = Some h → h ∈ atoms_at self i' n)
           ∧ (∀ n h d k' c', combo !! n = Some h → domain st' !! n = Some d →
                get_args d !! k' = Some (Const c') →
                function h = get_prefix d ∧ args h !! k' = Some c')
           ∧ (∀ h, i' = i → combo !! j = Some h → args h !! k = Some c)
           ∧ combo_instance st' combo = Return (Some si)).
Proof.
  intros Hs%reachable_sound Hi Hj Hk.
  assert (Hidx : ∀ i' j' st' d' h, ss !! i' = Some st' →
            domain st' !! j' = Some d' → h ∈ atoms_at self i' j' →
            h ∈ atoms self ∧ slot_ok h d' = true).
  { intros i' j' st' d' h Hi' Hj' Hh.
    destruct (sound_index _ _ Hs i' j' h Hh) as (? & st2 & d2 & H1 & H2 & Hok).
    by simplify_eq. }
  split_and!.
  - intros h Hh. destruct (Hidx i j st domain_fact h Hi Hj Hh) as [_ Hok].
    split; [|by eapply slot_ok_constant].
    by apply slot_ok_true in Hok as (? & _).
  - intros h Hh. by destruct (Hidx i j st domain_fact h Hi Hj Hh).
  - intros si Hsi%(sound_queue _ _ Hs).
    destruct (sound_instances _ _ Hs si Hsi)
      as [?|(i' & st' & combo & Hi' & Hc & E)]; [by left|right].
    rewrite (sound_streams _ _ Hs) in Hi'.
    apply elem_of_product_slot_lists in Hc as [Hlen Hc].
    exists i', st', combo. split_and!; [done| |done| | |done].
    + apply Forall2_same_length_lookup. split; [done|].
      intros n h d Hn Hd. eapply Hidx; [done..|]. by apply Hc.
    + intros n h d k' c' Hn Hd Hk'.
      destruct (Hidx i' n st' d h Hi' Hd (Hc n h Hn)) as [_ Hok].
      split; [|by eapply slot_ok_constant].
      by apply slot_ok_true in Hok as (? & _).
    + intros h -> Hh. simplify_eq.
      destruct (Hidx i j st domain_fact h Hi Hj (Hc j h Hh)) as [_ Hok].
      by eapply slot_ok_constant.
Qed.

Lemma constants_enforced_witness :
  atoms_at
    (new_Instantiator
       [mkEvaluation (mkHead "On" ["a"; "table2"]) true]
       [mkStream "s" ["?x"] [mkFact "On" [Param "?x"; Const "table1"]]]).2
    0 0 = []
  ∧ stream_queue
      (new_Instantiator
         [mkEvaluation (mkHead "On" ["a"; "table2"]) true]
         [mkStream "s" ["?x"] [mkFact "On" [Param "?x"; Const "table1"]]]).2
    = []
  ∧ ∀ h, h ∈ atoms_at
    (new_Instantiator
       [mkEvaluation (mkHead "On" ["a"; "table2"]) true;
        mkEvaluation (mkHead "On" ["b"; "table1"]) true]
       [mkStream "s" ["?x"] [mkFact "On" [Param "?x"; Const "table1"]]]).2
    0 0 → function h = "On" ∧ args h !! 1 = Some "table1".
Proof.
  split; [by vm_compute|]. split; [by vm_compute|].
  apply (constants_enforced
           [mkStream "s" ["?x"] [mkFact "On" [Param "?x"; Const "table1"]]]
           _ 0 0
           (mkStream "s" ["?x"] [mkFact "On" [Param "?x"; Const "table1"]])
           (mkFact "On" [Param "?x"; Const "table1"]) 1 "table1").
  - apply reachable_new_Instantiator.
  - reflexivity.
  - reflexivity.
  - reflexivity.
Defined.

(** ** The engine: what holds as long as nothing raises *)

Section completeness.
Implicit Types (self : Instantiator) (ss : list Stream) (X : gset Head).

Lemma sound_combo ss self i st combo :
  sound ss self → ss !! i = Some st →
  combo ∈ product (slot_lists self i st) →
  Forall2 (λ h d, h ∈ atoms self ∧ slot_ok h d = true) combo (domain st).
Proof.
  intros Hs Hi [Hlen Hc]%elem_of_product_slot_lists.
  apply Forall2_same_length_lookup. split; [done|].
  intros k h d Hk Hd.
  destruct (sound_index _ _ Hs i k h (Hc k h Hk))
    as (Hin & st2 & d2 & H1 & H2 & Hok).
  by simplify_eq.
Qed.

Lemma complete_combo ss self i st combo :
  complete ss self → ss !! i = Some st →
  Forall2 (λ h d, h ∈ atoms self ∧ slot_ok h d = true) combo (domain st) →
  combo ∈ product (slot_lists self i st).
Proof.
  intros Hc Hi [Hlen H]%Forall2_same_length_lookup.
  apply elem_of_product_slot_lists. split; [done|].
  intros k h Hk.
  destruct (lookup_lt_is_Some_2 (domain st) k) as [d Hd].
  { rewrite <-Hlen. by eapply lookup_lt_Some. }
  destruct (H k h d Hk Hd) as [Hin Hok].
  by eapply (complete_index _ _ Hc).
Qed.

Lemma bad_mono ss X Y : X ⊆ Y → bad ss X → bad ss Y.
Proof.
  intros HXY [(h & st & d & Hh & ?)|(st & c & e & Hst & Hne & Hc & E)].
  - left. exists h, st, d. split; [set_solver|done].
  - right. exists st, c, e. split_and!; [done..| |done].
    eapply Forall2_impl; [done|]. simpl. intros h d [? ?]. split; [set_solver|done].
Qed.

Lemma complete_not_bad ss self :
  sound ss self → complete ss self → ¬ bad ss (atoms self).
Proof.
  intros Hs Hc [(h & st & d & Hh & Hst & Hd & Hcl)
               |(st & c & e & Hst & Hne & Hfa & E)].
  - apply list_elem_of_lookup in Hst as [i Hi].
    apply list_elem_of_lookup in Hd as [j Hj].
    by apply (complete_arity _ _ Hc i st j d h).
  - apply list_elem_of_lookup in Hst as [i Hi].
    pose proof (complete_combo _ _ _ _ _ Hc Hi Hfa) as Hin.
    pose proof (complete_combos _ _ Hc i st c) as H.
    rewrite (sound_streams _ _ Hs), E in H. by apply H.
Qed.

Lemma combo_instance_empty_domain st combo si :
  domain st = [] → combo_instance st combo = Return (Some si) →
  stream si = st ∧ inputs st = [] ∧ input_objects si = [].
Proof.
  intros Hd. unfold combo_instance, get_mapping, safe_zip. rewrite Hd.
  case_decide; simpl; [|done].
  destruct (inputs st) as [|p ps]; simpl.
  - by intros [= <-].
  - unfold getitem. by rewrite lookup_empty.
Qed.

(** The instances of a state in which nothing has raised are determined
    by the declarations and the set of known heads. *)
Lemma good_instances_subseteq ss self1 self2 :
  sound ss self1 → sound ss self2 → complete ss self2 →
  atoms self1 = atoms self2 →
  stream_instances self1 ⊆ stream_instances self2.
Proof.
  intros Hs1 Hs2 Hc2 Hat si Hsi.
  destruct (sound_instances _ _ Hs1 si Hsi)
    as [Hz|(i & st & c & Hi & Hc & E)]; [by apply (sound_zero _ _ Hs2)|].
  rewrite (sound_streams _ _ Hs1) in Hi.
  destruct (decide (domain st = [])) as [Hd|Hne].
  - apply (sound_zero _ _ Hs2).
    destruct (combo_instance_empty_domain _ _ _ Hd E) as (<- & ? & ?).
    split_and!; [|done..]. by eapply list_elem_of_lookup_2.
  - pose proof (sound_combo _ _ _ _ _ Hs1 Hi Hc) as Hfa.
    rewrite Hat in Hfa.
    pose proof (complete_combo _ _ _ _ _ Hc2 Hi Hfa) as Hin.
    pose proof (complete_combos _ _ Hc2 i st c) as H.
    rewrite (sound_streams _ _ Hs2), E in H. by apply H.
Qed.

Lemma good_instances ss self1 self2 :
  sound ss self1 → complete ss self1 →
  sound ss self2 → complete ss self2 →
  atoms self1 = atoms self2 →
  stream_instances self1 = stream_instances self2.
Proof.
  intros. apply set_eq. intros si. split.
  - by apply (good_instances_subseteq ss self1 self2).
  - by apply (good_instances_subseteq ss self2 self1).
Qed.

Lemma visited_S i j i' j' :
  visited i (S j) i' j' = visited i j i' j' || ((i' =? i) && (j' =? j)).
Proof.
  unfold visited.
  destruct (Nat.ltb_spec i' i), (Nat.eqb_spec i' i),
    (Nat.ltb_spec j' (S j)), (Nat.ltb_spec j' j), (Nat.eqb_spec j' j);
    simpl; try done; lia.
Qed.

Lemma visited_0_0 i' j' : visited 0 0 i' j' = false.
Proof. unfold visited. by destruct i', j'. Qed.

Lemma visited_here i j : visited i j i j = false.
Proof.
  unfold visited. rewrite !Nat.ltb_irrefl, Nat.eqb_refl. done.
Qed.

Lemma enqueued_instances self self' new si :
  enqueued self self' new → si ∈ stream_instances self →
  si ∈ stream_instances self'.
Proof. intros (-> & _) ?. simpl. set_solver. Qed.

Lemma slot_values_slot_lists self i st j h combo :
  h ∈ atoms_at self i j →
  combo ∈ product (slot_values self i st j h) →
  combo ∈ product (slot_lists self i st).
Proof.
  intros Hh [Hlen Hc]%elem_of_product_slot_values.
  apply elem_of_product_slot_lists. split; [done|].
  intros k h' Hk. specialize (Hc k h' Hk). case_decide; [done|].
  by simplify_eq.
Qed.
End completeness.

Section add_atom_complete.
Context (ss : list Stream) (head : Head) (self0 : Instantiator).
Implicit Types (self : Instantiator).

Lemma mid_slot i j st d self :
  mid ss head self0 i j self →
  ss !! i = Some st → domain st !! j = Some d →
  match add_atom_slot head i st j d self with
  | (Return _, self') => mid ss head self0 i (S j) self'
  | (Raise _, _) => bad ss ({[head]} ∪ atoms self0)
  end.
Proof.
  intros (Hs & Ha & Hat & Hcl & Hci) Hi Hj.
  assert (Hh : head ∈ atoms self) by set_solver.
  destruct (sound_add_atom_slot ss self head i st j d Hs Hh Hi Hj)
    as [Hs' Ha'].
  assert (Hokb : slot_okb ss head i j = slot_ok head d).
  { unfold slot_okb. by rewrite Hi, Hj. }
  assert (Hst : st ∈ ss) by (by eapply list_elem_of_lookup_2).
  destruct (slot_ok head d) eqn:Hok.
  - rewrite add_atom_slot_ok in * by done.
    pose proof (sound_domain_append _ _ _ _ _ _ _ Hs Hh Hi Hj Hok) as Hs1.
    set (self1 := domain_append i j head self) in *.
    assert (Hh1 : head ∈ atoms_at self1 i j).
    { unfold self1. rewrite atoms_at_domain_append, decide_True by done.
      apply elem_of_app. right. by apply list_elem_of_singleton. }
    destruct (add_combinations_spec st
                (product (slot_values self1 i st j head)) self1)
      as (new & Hen & Hnew & Hres).
    destruct (for_each _ _ self1) as [[[]|e] self'] eqn:E; simpl in *.
    + split_and!.
      * done.
      * by rewrite Ha'.
      * intros i' j'. rewrite (atoms_at_enqueued _ _ _ _ _ Hen).
        unfold self1. rewrite atoms_at_domain_append, visited_S, !Hat.
        case_decide as Hd.
        -- injection Hd as <- <-.
           rewrite Hokb, visited_here, !Nat.eqb_refl. simpl.
           by rewrite app_nil_r.
        -- assert ((i' =? i) && (j' =? j) = false) as ->.
           { apply andb_false_iff.
             destruct (Nat.eqb_spec i' i), (Nat.eqb_spec j' j); auto.
             by subst. }
           by rewrite orb_false_r.
      * intros i' j' st' d' Hv Hi' Hj'. rewrite visited_S in Hv.
        apply orb_true_iff in Hv as [Hv|Hv]; [by eapply Hcl|].
        apply andb_true_iff in Hv as [->%Nat.eqb_eq ->%Nat.eqb_eq].
        simplify_eq. by apply slot_ok_not_clash.
      * intros i' st' c Hi' Hne Hc.
        rewrite (sound_streams _ _ Hs') in Hi'.
        apply elem_of_product_slot_lists in Hc as [Hlen Hc].
        assert (Hc1 : ∀ k h, c !! k = Some h → h ∈ atoms_at self1 i' k).
        { intros k h Hk. rewrite <-(atoms_at_enqueued _ _ _ _ _ Hen).
          by apply Hc. }
        assert (Hold : c ∈ product (slot_lists self i' st') →
                  match combo_instance st' c with
                  | Return (Some si) => si ∈ stream_instances self'
                  | Return None => True
                  | Raise _ => False
                  end).
        { intros Hin. pose proof (Hci i' st' c) as H.
          rewrite (sound_streams _ _ Hs) in H. specialize (H Hi' Hne Hin).
          destruct (combo_instance st' c) as [[si|]|]; [|done..].
          eapply enqueued_instances; [done|]. done. }
        destruct (decide (i' = i)) as [->|Hne'].
        -- simplify_eq. destruct (c !! j) as [hj|] eqn:Ecj.
           2:{ apply lookup_ge_None in Ecj.
               apply lookup_lt_Some in Hj. lia. }
           pose proof (Hc1 j hj Ecj) as Hhj. unfold self1 in Hhj.
           rewrite atoms_at_domain_append, decide_True in Hhj by done.
           apply elem_of_app in Hhj as [Hhj|Hhj%list_elem_of_singleton].
           ++ apply Hold. apply elem_of_product_slot_lists.
              split; [done|]. intros k h Hk.
              destruct (decide (k = j)) as [->|Hkj]; [by simplify_eq|].
              specialize (Hc1 k h Hk). unfold self1 in Hc1.
              rewrite atoms_at_domain_append, decide_False in Hc1; [done|].
              congruence.
           ++ subst hj. apply Hres. apply elem_of_product_slot_values.
              split; [done|]. intros k h Hk. case_decide as Hd.
              ** by apply Hc1.
              ** by simplify_eq.
        -- apply Hold. apply elem_of_product_slot_lists.
           split; [done|]. intros k h Hk.
           specialize (Hc1 k h Hk). unfold self1 in Hc1.
           rewrite atoms_at_domain_append, decide_False in Hc1; [done|].
           congruence.
    + destruct Hres as (c & Hc & Ec). right. exists st, c, e.
      split_and!; [done| | |done].
      * intros Hnil. by rewrite Hnil in Hj.
      * apply (slot_values_slot_lists _ _ _ _ _ _ Hh1) in Hc.
        pose proof (sound_combo _ _ _ _ _ Hs1 Hi Hc) as Hfa.
        eapply Forall2_impl; [done|]. simpl. intros h' d' [Hin ?].
        split; [|done]. unfold self1 in Hin. simpl in Hin. by rewrite <-Ha.
  - destruct (decide (arity_clash head d)) as [Hclash|Hclash].
    + rewrite add_atom_slot_clash by done. left. exists head, st, d.
      split_and!; [set_solver|done| |done].
      by eapply list_elem_of_lookup_2.
    + rewrite add_atom_slot_skip by done. split_and!; [done..| | |done].
      * intros i' j'. rewrite Hat, visited_S.
        destruct (Nat.eqb_spec i' i) as [->|]; [|by rewrite orb_false_r].
        destruct (Nat.eqb_spec j' j) as [->|]; [|by rewrite orb_false_r].
        by rewrite Hokb, !andb_false_r.
      * intros i' j' st' d' Hv Hi' Hj'. rewrite visited_S in Hv.
        apply orb_true_iff in Hv as [Hv|Hv]; [by eapply Hcl|].
        apply andb_true_iff in Hv as [->%Nat.eqb_eq ->%Nat.eqb_eq].
        by simplify_eq.
Qed.

Lemma visited_next i st i' j' :
  ss !! i = Some st →
  visited (S i) 0 i' j' && slot_okb ss head i' j'
  = visited i (length (domain st)) i' j' && slot_okb ss head i' j'.
Proof.
  intros Hi. unfold visited.
  destruct (Nat.ltb_spec i' (S i)), (Nat.ltb_spec i' i),
    (Nat.eqb_spec i' i), (Nat.eqb_spec i' (S i)),
    (Nat.ltb_spec j' (length (domain st)));
    simpl; try done; try lia.
  subst i'. unfold slot_okb. rewrite Hi.
  by rewrite (lookup_ge_None_2 (domain st) j').
Qed.

Lemma mid_next_stream i st self :
  ss !! i = Some st →
  mid ss head self0 i (length (domain st)) self →
  mid ss head self0 (S i) 0 self.
Proof.
  intros Hi (Hs & Ha & Hat & Hcl & Hci). split_and!; [done..| | |done].
  - intros i' j'. by rewrite Hat, (visited_next i st).
  - intros i' j' st' d' Hv Hi' Hj'. apply (Hcl i' j' st' d'); [|done..].
    revert Hv. unfold visited.
    destruct (Nat.ltb_spec i' (S i)), (Nat.ltb_spec i' i),
      (Nat.eqb_spec i' i), (Nat.eqb_spec i' (S i));
      simpl; try done; try lia.
    intros _. subst i'. simplify_eq. apply Nat.ltb_lt.
    by eapply lookup_lt_Some.
Qed.

Lemma mid_stream i st self :
  mid ss head self0 i 0 self → ss !! i = Some st →
  match for_each (enumerate (domain st))
          (λ '(j, domain_fact), add_atom_slot head i st j domain_fact) self
  with
  | (Return _, self') => mid ss head self0 (S i) 0 self'
  | (Raise _, _) => bad ss ({[head]} ∪ atoms self0)
  end.
Proof.
  intros Hm Hi.
  pose proof (for_each_enumerate
                (λ k s, mid ss head self0 i k s)
                (bad ss ({[head]} ∪ atoms self0)) (domain st)
                (λ '(j, domain_fact), add_atom_slot head i st j domain_fact)
                0 self) as H.
  unfold enumerate.
  destruct (for_each _ _ self) as [[[]|e] self'].
  - apply (mid_next_stream i st); [done|]. apply H; [|done].
    intros k d s Hk Hs. by apply mid_slot.
  - apply H; [|done]. intros k d s Hk Hs. by apply mid_slot.
Qed.

Lemma mid_loops self :
  mid ss head self0 0 0 self →
  match add_atom_loops head ss self with
  | (Return _, self') => mid ss head self0 (length ss) 0 self'
  | (Raise _, _) => bad ss ({[head]} ∪ atoms self0)
  end.
Proof.
  intros Hm. unfold add_atom_loops, enumerate.
  apply (for_each_enumerate
           (λ i s, mid ss head self0 i 0 s)
           (bad ss ({[head]} ∪ atoms self0)) ss
           (λ '(i, stream),
              for_each (enumerate (domain stream))
                (λ '(j, domain_fact),
                   add_atom_slot head i stream j domain_fact))
           0 self); [|done].
  intros i st s Hi Hs. by apply mid_stream.
Qed.

Lemma mid_start :
  sound ss self0 → complete ss self0 →
  mid ss head self0 0 0 (atoms_add head self0).
Proof.
  intros Hs Hc. split_and!.
  - by apply sound_atoms_add.
  - done.
  - intros i' j'. rewrite visited_0_0. simpl. by rewrite app_nil_r.
  - intros i' j' st d Hv. by rewrite visited_0_0 in Hv.
  - apply (complete_combos _ _ Hc).
Qed.

Lemma mid_end self :
  sound ss self0 → complete ss self0 →
  mid ss head self0 (length ss) 0 self → complete ss self.
Proof.
  intros Hs0 Hc0 (Hs & Ha & Hat & Hcl & Hci).
  assert (Hv : ∀ i j st, ss !! i = Some st →
            visited (length ss) 0 i j = true).
  { intros i j st Hi%lookup_lt_Some. unfold visited.
    apply orb_true_iff. left. by apply Nat.ltb_lt. }
  split; [| |done].
  - intros i st j d h Hi Hj Hh Hok. rewrite Hat, (Hv i j st Hi).
    unfold slot_okb. rewrite Hi, Hj. simpl. rewrite Ha in Hh.
    apply elem_of_app. apply elem_of_union in Hh as [->%elem_of_singleton|Hh].
    + right. rewrite Hok. by apply list_elem_of_singleton.
    + left. by eapply (complete_index _ _ Hc0).
  - intros i st j d h Hi Hj Hh. rewrite Ha in Hh.
    apply elem_of_union in Hh as [->%elem_of_singleton|Hh].
    + by eapply Hcl; [eapply Hv|..].
    + by eapply (complete_arity _ _ Hc0).
Qed.
End add_atom_complete.

Section add_atoms_complete.
Implicit Types (self : Instantiator) (ss : list Stream).

(** A call of [add_atom] in a state in which nothing has raised. *)
Lemma add_atom_good ss self atom :
  sound ss self → complete ss self →
  match add_atom atom self with
  | (Return b, self') =>
      complete ss self'
      ∧ atoms self' = heads_of [atom] ∪ atoms self
      ∧ b = bool_decide (is_atom atom = true ∧ head atom ∉ atoms self)
  | (Raise _, _) => bad ss (heads_of [atom] ∪ atoms self)
  end.
Proof.
  intros Hs Hc. rewrite add_atom_eq. unfold heads_of.
  destruct (is_atom atom) eqn:Hat; simpl.
  2:{ rewrite filter_cons_False by (by rewrite Hat). simpl.
      split_and!; [done|set_solver|done]. }
  rewrite filter_cons_True by done. simpl.
  case_decide as Hin.
  { split_and!; [done|set_solver|].
    symmetry. apply bool_decide_eq_false. by intros [_ ?]. }
  rewrite (sound_streams _ _ Hs).
  pose proof (mid_loops ss (head atom) self _
                (mid_start ss (head atom) self Hs Hc)) as H.
  replace ({[head atom]} ∪ ∅ ∪ atoms self)
    with ({[head atom]} ∪ atoms self) by set_solver.
  destruct (add_atom_loops _ _ _) as [[[]|e] self']; simpl; [|done].
  split_and!.
  - by eapply mid_end.
  - by destruct H as (_ & ? & _).
  - symmetry. by apply bool_decide_eq_true.
Qed.

Lemma heads_of_cons atom evaluations :
  heads_of (atom :: evaluations) = heads_of [atom] ∪ heads_of evaluations.
Proof.
  unfold heads_of. destruct (is_atom atom) eqn:E.
  - rewrite !filter_cons_True by done. simpl. set_solver.
  - rewrite !filter_cons_False by (by rewrite E). simpl. set_solver.
Qed.

Lemma elem_of_heads_of h evaluations :
  h ∈ heads_of evaluations ↔
  ∃ atom, atom ∈ evaluations ∧ is_atom atom = true ∧ head atom = h.
Proof.
  unfold heads_of.
  rewrite elem_of_list_to_set, list_elem_of_fmap.
  setoid_rewrite list_elem_of_filter. naive_solver.
Qed.

(** A run of [add_atom] over evaluations, from a state in which nothing
    has raised. *)
Lemma add_atoms_good ss evaluations self :
  sound ss self → complete ss self →
  match add_atoms evaluations self with
  | (Return _, self') =>
      sound ss self' ∧ complete ss self'
      ∧ atoms self' = heads_of evaluations ∪ atoms self
  | (Raise _, _) => bad ss (heads_of evaluations ∪ atoms self)
  end.
Proof.
  unfold add_atoms.
  revert self. induction evaluations as [|atom evaluations IH];
    intros self Hs Hc.
  - simpl. split_and!; [done..|]. unfold heads_of. simpl. set_solver.
  - rewrite for_each_cons, add_atom_then_ret, heads_of_cons.
    pose proof (add_atom_good ss self atom Hs Hc) as H.
    pose proof (sound_add_atom ss self atom Hs) as Hs'.
    destruct (add_atom atom self) as [[b|e] self1]; simpl in *.
    + destruct H as (Hc1 & Ha1 & _). specialize (IH self1 Hs' Hc1).
      destruct (for_each evaluations _ self1) as [[[]|e] self2].
      * destruct IH as (? & ? & Ha2). split_and!; [done..|].
        rewrite Ha2, Ha1. set_solver.
      * eapply bad_mono; [|done]. rewrite Ha1. set_solver.
    + eapply bad_mono; [|done]. set_solver.
Qed.

Lemma complete_init_state ss : complete ss (init_state ss).
Proof.
  destruct (add_zero_input_instances_spec ss (mkInstantiator ss ∅ [] ∅ ∅))
    as (_ & new & (Heq & _) & _).
  fold (init_state ss) in Heq. simpl in Heq.
  assert (Hat : ∀ i j, atoms_at (init_state ss) i j = []).
  { intros i j. rewrite Heq. unfold atoms_at. simpl.
    by rewrite lookup_empty. }
  split.
  - intros i st j d h _ _ Hh. rewrite Heq in Hh. simpl in Hh. set_solver.
  - intros i st j d h _ _ Hh. rewrite Heq in Hh. simpl in Hh. set_solver.
  - intros i st c Hi Hne [Hlen Hc]%elem_of_product_slot_lists.
    destruct c as [|h c]; [by destruct (domain st)|].
    specialize (Hc 0 h eq_refl). rewrite Hat in Hc.
    by apply elem_of_nil in Hc.
Qed.
End add_atoms_complete.

(** ** Declarations and atoms that never raise *)

Section well_formed.
Implicit Types (self : Instantiator) (ss : list Stream) (X : gset Head).

Lemma getitems_Return (m : Mapping) ps :
  (∀ p, p ∈ ps → is_Some (m !! Param p)) →
  ∃ os, getitems m ps = Return os.
Proof.
  induction ps as [|p ps IH]; intros H; simpl; [by eexists|].
  destruct (H p) as [o Ho]; [by left|]. unfold getitem. rewrite Ho. simpl.
  destruct IH as [os ->]; [|by eexists].
  intros q Hq. apply H. by right.
Qed.

Lemma slot_ok_matched combo (facts : list Fact) X :
  Forall2 (λ h d, h ∈ X ∧ slot_ok h d = true) combo facts →
  Forall2 matched facts combo.
Proof.
  intros H. apply Forall2_flip. eapply Forall2_impl; [done|]. simpl.
  intros h d [_ (Hp & Hl & _)%slot_ok_true]. by split.
Qed.

Lemma not_bad ss X : grounded ss → arities_agree ss X → ¬ bad ss X.
Proof.
  intros Hg Ha [(h & st & d & Hh & Hst & Hd & Hp & Hne)
               |(st & c & e & Hst & Hne & Hfa & E)].
  - by apply Hne, (Ha h st d).
  - apply slot_ok_matched in Hfa. revert E. unfold combo_instance.
    rewrite (get_mapping_matched _ _ Hfa).
    destruct (bind_args ∅ _) as [m|] eqn:Em; simpl; [|done].
    destruct (getitems_Return m (inputs st)) as [os ->]; [|done].
    intros p Hp. destruct (Hg st p Hst Hp) as (d & Hd & Hpd).
    destruct (arg_pairs_covers _ _ _ _ Hfa Hd Hpd) as [o Ho].
    exists o. apply bind_args_Some in Em as (_ & _ & Hm).
    apply Hm. by right.
Qed.

Lemma complete_arities_agree ss self :
  complete ss self → arities_agree ss (atoms self).
Proof.
  intros Hc h st d Hh [i Hi]%list_elem_of_lookup [j Hj]%list_elem_of_lookup Hp.
  destruct (decide (length (args h) = length (get_args d))) as [|Hne];
    [done|].
  by destruct (complete_arity _ _ Hc i st j d h Hi Hj Hh).
Qed.

Lemma arities_agree_union ss X Y :
  arities_agree ss X → arities_agree ss Y → arities_agree ss (X ∪ Y).
Proof.
  intros HX HY h st d [?|?]%elem_of_union; [by apply HX|by apply HY].
Qed.

Lemma arities_agree_empty ss : arities_agree ss ∅.
Proof. intros h st d Hh. set_solver. Qed.

Lemma heads_of_perm evaluations1 evaluations2 :
  evaluations1 ≡ₚ evaluations2 →
  heads_of evaluations1 = heads_of evaluations2.
Proof.
  intros Hp. apply set_eq. intros h. rewrite !elem_of_heads_of.
  split; intros (a & Ha & ?); exists a; (split; [|done]).
  - by rewrite <-Hp.
  - by rewrite Hp.
Qed.

Lemma new_Instantiator_good evaluations ss :
  (new_Instantiator evaluations ss).1 = Return tt →
  sound ss (new_Instantiator evaluations ss).2
  ∧ complete ss (new_Instantiator evaluations ss).2.
Proof.
  rewrite new_Instantiator_eq.
  pose proof (add_atoms_good ss evaluations (init_state ss)
                (sound_init_state ss) (complete_init_state ss)) as H.
  destruct (add_atoms evaluations (init_state ss)) as [[[]|e] s]; [|done].
  intros _. by destruct H as (? & ? & _).
Qed.
End well_formed.

(** C1, restricted to the runs in which no call raises.  From an engine
    that [__init__] has built, submitting a list of atoms, one call of
    [add_atom] for each up to the first call that raises, and submitting any
    permutation of it: either both runs end in an exception, or both return,
    and then they leave the same set of stream instances (and the same known
    heads).  Which of the two it is depends on the set of heads alone, and
    the runs return whenever the declarations meet their grounding
    obligation and the heads have the declared numbers of arguments.  What
    a run that raises leaves behind is not covered: it depends on the
    order. *)
Theorem instances_order_independent ss evaluations atoms1 atoms2 :
  (new_Instantiator evaluations ss).1 = Return tt →
  atoms1 ≡ₚ atoms2 →
  let self := (new_Instantiator evaluations ss).2 in
  ((∃ e1 e2, (add_atoms atoms1 self).1 = Raise e1
             ∧ (add_atoms atoms2 self).1 = Raise e2)
   ∨ ((add_atoms atoms1 self).1 = Return tt
      ∧ (add_atoms atoms2 self).1 = Return tt
      ∧ stream_instances (add_atoms atoms1 self).2
        = stream_instances (add_atoms atoms2 self).2
      ∧ atoms (add_atoms atoms1 self).2 = atoms (add_atoms atoms2 self).2))
  ∧ (grounded ss → arities_agree ss (heads_of atoms1) →
     (add_atoms atoms1 self).1 = Return tt).
Proof.
  intros Hr Hp self.
  destruct (new_Instantiator_good _ _ Hr) as [Hs Hc]. fold self in Hs, Hc.
  pose proof (add_atoms_good ss atoms1 self Hs Hc) as H1.
  pose proof (add_atoms_good ss atoms2 self Hs Hc) as H2.
  rewrite <-(heads_of_perm _ _ Hp) in H2.
  split.
  - destruct (add_atoms atoms1 self) as [[[]|e1] s1],
      (add_atoms atoms2 self) as [[[]|e2] s2]; simpl.
    + right. destruct H1 as (Hs1 & Hc1 & Ha1), H2 as (Hs2 & Hc2 & Ha2).
      assert (atoms s1 = atoms s2) by congruence.
      split_and!; [done..| |done]. by apply (good_instances ss).
    + destruct H1 as (Hs1 & Hc1 & Ha1).
      destruct (complete_not_bad ss s1 Hs1 Hc1). by rewrite Ha1.
    + destruct H2 as (Hs2 & Hc2 & Ha2).
      destruct (complete_not_bad ss s2 Hs2 Hc2). by rewrite Ha2.
    + left. by exists e1, e2.
  - intros Hg Ha.
    destruct (add_atoms atoms1 self) as [[[]|e1] s1]; [done|].
    destruct (not_bad ss (heads_of atoms1 ∪ atoms self)); [done| |done].
    apply arities_agree_union; [done|by apply complete_arities_agree].
Qed.

Lemma instances_order_independent_witness :
  stream_instances
    (add_atoms [mkEvaluation (mkHead "Obj" ["a"]) true;
                mkEvaluation (mkHead "Obj" ["b"]) true]
       (new_Instantiator []
          [mkStream "s2" ["?x"; "?y"]
             [mkFact "Obj" [Param "?x"]; mkFact "Obj" [Param "?y"]]]).2).2
  = stream_instances
    (add_atoms [mkEvaluation (mkHead "Obj" ["b"]) true;
                mkEvaluation (mkHead "Obj" ["a"]) true]
       (new_Instantiator []
          [mkStream "s2" ["?x"; "?y"]
             [mkFact "Obj" [Param "?x"]; mkFact "Obj" [Param "?y"]]]).2).2.
Proof.
  assert (Hr : (new_Instantiator []
          [mkStream "s2" ["?x"; "?y"]
             [mkFact "Obj" [Param "?x"]; mkFact "Obj" [Param "?y"]]]).1
          = Return tt) by reflexivity.
  assert (Hp : [mkEvaluation (mkHead "Obj" ["a"]) true;
                mkEvaluation (mkHead "Obj" ["b"]) true]
               ≡ₚ [mkEvaluation (mkHead "Obj" ["b"]) true;
                   mkEvaluation (mkHead "Obj" ["a"]) true])
    by apply perm_swap.
  destruct (proj1 (instances_order_independent _ _ _ _ Hr Hp))
    as [(e1 & e2 & E1 & _)|(_ & _ & H & _)].
  - vm_compute in E1. discriminate E1.
  - exact H.
Defined.

(** C1 as the specification words it fails: the instance set left by the
    calls can depend on the order.  Stream [u] declares an input that its
    domain does not hold, stream [t] is declared after it, and the atoms are
    P(a) and Q(b).  Submitted as P(a), Q(b), the first call enqueues t(a) and
    the second raises a key error at [u]; submitted as Q(b), P(a), the second
    call raises at [u] before it reaches [t], and nothing is enqueued.  This
    holds whether the run stops at the call that raises or goes on with the
    state that call left. *)
Lemma instances_depend_on_order :
  ¬ (∀ ss atoms1 atoms2, atoms1 ≡ₚ atoms2 →
       stream_instances (add_atoms atoms1 (new_Instantiator [] ss).2).2
       = stream_instances (add_atoms atoms2 (new_Instantiator [] ss).2).2)
  ∧ ¬ (∀ ss atoms1 atoms2, atoms1 ≡ₚ atoms2 →
         stream_instances
           (foldl (λ self atom, (add_atom atom self).2)
              (new_Instantiator [] ss).2 atoms1)
         = stream_instances
             (foldl (λ self atom, (add_atom atom self).2)
                (new_Instantiator [] ss).2 atoms2)).
Proof.
  split; intros H.
  - specialize (H [mkStream "u" ["?w"]
                     [mkFact "P" [Param "?x"]; mkFact "Q" [Param "?y"]];
                   mkStream "t" ["?x"] [mkFact "P" [Param "?x"]]]
                  [mkEvaluation (mkHead "P" ["a"]) true;
                   mkEvaluation (mkHead "Q" ["b"]) true]
                  [mkEvaluation (mkHead "Q" ["b"]) true;
                   mkEvaluation (mkHead "P" ["a"]) true]
                  (perm_swap _ _ _)).
    apply (f_equal (λ X, bool_decide
             (get_instance (mkStream "t" ["?x"] [mkFact "P" [Param "?x"]])
                ["a"] ∈ X))) in H.
    vm_compute in H. discriminate H.
  - specialize (H [mkStream "u" ["?w"]
                     [mkFact "P" [Param "?x"]; mkFact "Q" [Param "?y"]];
                   mkStream "t" ["?x"] [mkFact "P" [Param "?x"]]]
                  [mkEvaluation (mkHead "P" ["a"]) true;
                   mkEvaluation (mkHead "Q" ["b"]) true]
                  [mkEvaluation (mkHead "Q" ["b"]) true;
                   mkEvaluation (mkHead "P" ["a"]) true]
                  (perm_swap _ _ _)).
    apply (f_equal (λ X, bool_decide
             (get_instance (mkStream "t" ["?x"] [mkFact "P" [Param "?x"]])
                ["a"] ∈ X))) in H.
    vm_compute in H. discriminate H.
Qed.

(** ** Resubmission and rejection *)

Section resubmission.
Implicit Types (self : Instantiator).

Lemma add_atom_slot_atoms head i st j d self :
  atoms (add_atom_slot head i st j d self).2 = atoms self.
Proof.
  destruct (slot_ok head d) eqn:Hok.
  - rewrite add_atom_slot_ok by done.
    destruct (add_combinations_spec st
                (product (slot_values (domain_append i j head self)
                            i st j head))
                (domain_append i j head self)) as (new & (-> & _) & _).
    done.
  - destruct (decide (arity_clash head d)).
    + by rewrite add_atom_slot_clash.
    + by rewrite add_atom_slot_skip.
Qed.

Lemma add_atom_loops_atoms head ss self :
  atoms (add_atom_loops head ss self).2 = atoms self.
Proof.
  unfold add_atom_loops.
  apply (for_each_preserves (λ s, atoms s = atoms self)); [|done].
  intros [i st] s _ Hs.
  apply (for_each_preserves (λ s, atoms s = atoms self)); [|done].
  intros [j d] s1 _ Hs1. by rewrite add_atom_slot_atoms.
Qed.

Lemma add_atom_known atom self :
  is_atom atom = true → head atom ∈ atoms (add_atom atom self).2.
Proof.
  intros Ha. rewrite add_atom_eq, Ha. simpl. case_decide; [done|]. simpl.
  rewrite add_atom_loops_atoms. simpl. set_solver.
Qed.

Lemma add_atom_again atom self :
  head atom ∈ atoms self → add_atom atom self = (Return false, self).
Proof.
  intros Hin. rewrite add_atom_eq. destruct (is_atom atom); simpl; [|done].
  by rewrite decide_True.
Qed.

Lemma add_atom_non_atom atom self :
  is_atom atom = false → add_atom atom self = (Return false, self).
Proof. intros Ha. by rewrite add_atom_eq, Ha. Qed.

Lemma heads_of_atom atom :
  is_atom atom = true → heads_of [atom] = {[head atom]}.
Proof.
  intros Ha. unfold heads_of. rewrite filter_cons_True by done.
  simpl. set_solver.
Qed.
End resubmission.



(** C6, as the code has it.  A value that [is_atom] rejects makes
    [add_atom] return false with the state untouched.  An atom with a new
    head that has the predicate of a declared domain fact and another number
    of arguments is not rejected: its head joins the known heads and the
    call raises. *)
Theorem add_atom_rejects_non_atoms :
  (∀ self atom, is_atom atom = false →
     add_atom atom self = (Return false, self))
  ∧ (∀ self atom i st j domain_fact,
       is_atom atom = true → head atom ∉ atoms self →
       streams self !! i = Some st → domain st !! j = Some domain_fact →
       arity_clash (head atom) domain_fact →
       (∃ e, (add_atom atom self).1 = Raise e)
       ∧ head atom ∈ atoms (add_atom atom self).2).
Proof.
  split; [intros self atom; apply add_atom_non_atom|].
  intros self atom i st j d Ha Hin Hi Hj Hcl.
  split; [|by apply add_atom_known].
  rewrite add_atom_eq, Ha. simpl. rewrite decide_False by done. simpl.
  destruct (for_each_raises (enumerate (streams self))
              (λ '(i, stream),
                 for_each (enumerate (domain stream))
                   (λ '(j, domain_fact),
                      add_atom_slot (head atom) i stream j domain_fact))
              (i, st)) with (self := atoms_add (head atom) self) as [e He].
  - by apply elem_of_enumerate.
  - intros s. apply (for_each_raises _ _ (j, d)).
    + by apply elem_of_enumerate.
    + intros s'. exists AssertionError. by rewrite add_atom_slot_clash.
  - exists e. fold (add_atom_loops (head atom) (streams self)) in He.
    by rewrite He.
Qed.

Lemma add_atom_rejects_non_atoms_witness :
  add_atom (mkEvaluation (mkHead "On" ["a"; "?y"]) false)
    (new_Instantiator []
       [mkStream "s" ["?x"] [mkFact "On" [Param "?x"; Param "?y"]]]).2
  = (Return false,
     (new_Instantiator []
        [mkStream "s" ["?x"] [mkFact "On" [Param "?x"; Param "?y"]]]).2)
  ∧ ∃ e, (add_atom (mkEvaluation (mkHead "On" ["a"]) true)
            (new_Instantiator []
               [mkStream "s" ["?x"]
                  [mkFact "On" [Param "?x"; Param "?y"]]]).2).1 = Raise e.
Proof.
  split.
  - by apply (proj1 add_atom_rejects_non_atoms).
  - apply (proj2 add_atom_rejects_non_atoms _ _ 0
             (mkStream "s" ["?x"] [mkFact "On" [Param "?x"; Param "?y"]]) 0
             (mkFact "On" [Param "?x"; Param "?y"])).
    + reflexivity.
    + vm_compute. set_solver.
    + reflexivity.
    + reflexivity.
    + split; [reflexivity|]. simpl. lia.
Defined.

(** C6 as the specification words it fails: an atom whose predicate is that
    of a declared domain fact and whose number of arguments differs is not
    answered with false and an untouched state. *)
Lemma arity_mismatch_not_rejected :
  ¬ (∀ self atom i st j domain_fact,
       streams self !! i = Some st → domain st !! j = Some domain_fact →
       arity_clash (head atom) domain_fact →
       add_atom atom self = (Return false, self)).
Proof.
  intros H.
  specialize (H (new_Instantiator []
                   [mkStream "s" ["?x"]
                      [mkFact "On" [Param "?x"; Param "?y"]]]).2
                (mkEvaluation (mkHead "On" ["a"]) true) 0
                (mkStream "s" ["?x"] [mkFact "On" [Param "?x"; Param "?y"]]) 0
                (mkFact "On" [Param "?x"; Param "?y"])
                eq_refl eq_refl).
  apply (f_equal fst) in H.
  - vm_compute in H. discriminate H.
  - split; [reflexivity|]. simpl. lia.
Qed.

(** ** The scenario of the two-slot domain *)

(** C3.  For a stream with inputs [?x, ?y] and domain
    [Pred(?x), Pred2(?x, ?y)] and a fresh engine: after [Pred(a)] alone
    nothing is enqueued; after [Pred(a)] then [Pred2(a, b)] the queue is the
    one instance for [(a, b)]; after [Pred2(a, b)] then [Pred(a)] it is that
    same instance, once.  All calls return true. *)
Theorem no_missed_combination :
  let s := mkStream "s" ["?x"; "?y"]
             [mkFact "Pred" [Param "?x"];
              mkFact "Pred2" [Param "?x"; Param "?y"]] in
  let pred_a := mkEvaluation (mkHead "Pred" ["a"]) true in
  let pred2_ab := mkEvaluation (mkHead "Pred2" ["a"; "b"]) true in
  let fresh := (new_Instantiator [] [s]).2 in
  stream_queue fresh = []
  ∧ (add_atom pred_a fresh).1 = Return true
  ∧ stream_queue (add_atom pred_a fresh).2 = []
  ∧ (add_atom pred2_ab (add_atom pred_a fresh).2).1 = Return true
  ∧ stream_queue (add_atom pred2_ab (add_atom pred_a fresh).2).2
    = [get_instance s ["a"; "b"]]
  ∧ (add_atom pred2_ab fresh).1 = Return true
  ∧ stream_queue (add_atom pred2_ab fresh).2 = []
  ∧ (add_atom pred_a (add_atom pred2_ab fresh).2).1 = Return true
  ∧ stream_queue (add_atom pred_a (add_atom pred2_ab fresh).2).2
    = [get_instance s ["a"; "b"]]
  ∧ stream_instances (add_atom pred2_ab (add_atom pred_a fresh).2).2
    = stream_instances (add_atom pred_a (add_atom pred2_ab fresh).2).2.
Proof. cbv zeta. repeat split; compute_done. Qed.

(** * Further properties of the engine *)

(** ** The queue and the instance set *)

(** X1.  In every state of the engine the ready queue holds every instance
    of [stream_instances], each once, and nothing else: its length is the
    size of the set. *)
Theorem queue_is_instance_set ss self :
  reachable ss self →
  NoDup (stream_queue self)
  ∧ stream_instances self = list_to_set (stream_queue self)
  ∧ length (stream_queue self) = size (stream_instances self).
Proof.
  intros Hs%reachable_sound.
  pose proof (sound_queue_NoDup _ _ Hs) as Hnd.
  assert (E : stream_instances self = list_to_set (stream_queue self)).
  { apply set_eq. intros si. rewrite elem_of_list_to_set.
    symmetry. apply (sound_queue _ _ Hs). }
  split_and!; [done..|]. by rewrite E, size_list_to_set.
Qed.

Lemma queue_is_instance_set_witness :
  NoDup (stream_queue
    (new_Instantiator
       [mkEvaluation (mkHead "Obj" ["a"]) true;
        mkEvaluation (mkHead "Obj" ["b"]) true]
       [mkStream "s2" ["?x"; "?y"]
          [mkFact "Obj" [Param "?x"]; mkFact "Obj" [Param "?y"]]]).2).
Proof.
  apply (queue_is_instance_set
           [mkStream "s2" ["?x"; "?y"]
              [mkFact "Obj" [Param "?x"]; mkFact "Obj" [Param "?y"]]]).
  apply reachable_new_Instantiator.
Defined.

(** X2.  In every state of the engine every enqueued instance is an
    instance of a declared stream and has one input object for each input
    of its stream. *)
Theorem instances_of_declared_streams ss self si :
  reachable ss self → si ∈ stream_queue self →
  stream si ∈ ss ∧ length (input_objects si) = length (inputs (stream si)).
Proof.
  intros Hs%reachable_sound Hsi%(sound_queue _ _ Hs).
  by apply (sound_input_length ss self).
Qed.

Lemma instances_of_declared_streams_witness :
  stream (get_instance (mkStream "S1" ["?x"] [mkFact "Obj" [Param "?x"]])
            ["block1"])
    ∈ [mkStream "S1" ["?x"] [mkFact "Obj" [Param "?x"]]]
  ∧ length (input_objects
              (get_instance (mkStream "S1" ["?x"] [mkFact "Obj" [Param "?x"]])
                 ["block1"]))
    = length (inputs
                (stream (get_instance
                           (mkStream "S1" ["?x"] [mkFact "Obj" [Param "?x"]])
                           ["block1"]))).
Proof.
  apply (instances_of_declared_streams
           [mkStream "S1" ["?x"] [mkFact "Obj" [Param "?x"]]]
           (new_Instantiator [mkEvaluation (mkHead "Obj" ["block1"]) true]
              [mkStream "S1" ["?x"] [mkFact "Obj" [Param "?x"]]]).2).
  - apply reachable_new_Instantiator.
  - vm_compute. by left.
Defined.

(** ** Facts that change nothing *)

Lemma for_each_skip {A} (l : list A) (body : A → M unit) self :
  (∀ x, x ∈ l → body x self = (Return tt, self)) →
  for_each l body self = (Return tt, self).
Proof.
  induction l as [|x l IH]; intros H; [done|].
  rewrite for_each_cons, (H x) by (by left). apply IH.
  intros y Hy. apply H. by right.
Qed.

(** X3.  An atom with a new head whose predicate is the predicate of no
    domain fact of any declared stream is recorded and that is all:
    [add_atom] returns true, the head joins the known heads, and the index
    lists, the instance set and the queue stay as they are. *)
Theorem add_atom_irrelevant self atom :
  is_atom atom = true → head atom ∉ atoms self →
  (∀ st d, st ∈ streams self → d ∈ domain st →
     function (head atom) ≠ get_prefix d) →
  add_atom atom self = (Return true, atoms_add (head atom) self).
Proof.
  intros Ha Hin Hirr. rewrite add_atom_eq, Ha. simpl.
  rewrite decide_False by done.
  assert (E : add_atom_loops (head atom) (streams self)
                (atoms_add (head atom) self)
              = (Return tt, atoms_add (head atom) self)); [|by rewrite E].
  unfold add_atom_loops. apply for_each_skip.
  intros [i st] Hi%elem_of_enumerate. apply for_each_skip.
  intros [j d] Hj%elem_of_enumerate. unfold add_atom_slot.
  rewrite decide_True; [done|].
  apply (Hirr st d); by eapply list_elem_of_lookup_2.
Qed.

Lemma add_atom_irrelevant_witness :
  add_atom (mkEvaluation (mkHead "Colour" ["a"; "red"]) true)
    (mkInstantiator
       [mkStream "S1" ["?x"] [mkFact "Obj" [Param "?x"]]] ∅ [] ∅ ∅)
  = (Return true,
     atoms_add (mkHead "Colour" ["a"; "red"])
       (mkInstantiator
          [mkStream "S1" ["?x"] [mkFact "Obj" [Param "?x"]]] ∅ [] ∅ ∅)).
Proof.
  apply (add_atom_irrelevant
           (mkInstantiator
              [mkStream "S1" ["?x"] [mkFact "Obj" [Param "?x"]]] ∅ [] ∅ ∅)
           (mkEvaluation (mkHead "Colour" ["a"; "red"]) true)).
  - reflexivity.
  - simpl. set_solver.
  - simpl. intros st d ->%list_elem_of_singleton ->%list_elem_of_singleton.
    simpl. discriminate.
Defined.

(** X4.  Submitting again what is known already is a no-op: a run of
    [add_atom] over evaluations that are not atoms or whose heads are known
    returns and leaves the state as it is.  So a run that returned can be
    replayed, in any order and with repetitions, without any effect. *)
Theorem add_atoms_known evaluations self :
  (∀ atom, atom ∈ evaluations → is_atom atom = true →
     head atom ∈ atoms self) →
  add_atoms evaluations self = (Return tt, self).
Proof.
  intros H. unfold add_atoms. apply for_each_skip. intros atom Hin.
  rewrite add_atom_then_ret.
  destruct (is_atom atom) eqn:Ha.
  - by rewrite add_atom_again by (by apply H).
  - by rewrite add_atom_non_atom.
Qed.

Lemma add_atoms_known_witness :
  add_atoms [mkEvaluation (mkHead "Obj" ["a"]) true;
             mkEvaluation (mkHead "Obj" ["b"]) false;
             mkEvaluation (mkHead "Obj" ["a"]) true]
    (atoms_add (mkHead "Obj" ["a"])
       (mkInstantiator
          [mkStream "S1" ["?x"] [mkFact "Obj" [Param "?x"]]] ∅ [] ∅ ∅))
  = (Return tt,
     atoms_add (mkHead "Obj" ["a"])
       (mkInstantiator
          [mkStream "S1" ["?x"] [mkFact "Obj" [Param "?x"]]] ∅ [] ∅ ∅)).
Proof.
  apply add_atoms_known. intros atom Hin Ha. simpl.
  apply elem_of_cons in Hin as [->|Hin]; [set_solver|].
  apply elem_of_cons in Hin as [->|Hin]; [discriminate Ha|].
  apply list_elem_of_singleton in Hin as ->. set_solver.
Defined.

(** ** More on unification *)

Lemma elem_of_arg_pairs atoms1 atoms2 t o :
  (t, o) ∈ arg_pairs atoms1 atoms2 ↔
  ∃ n a1 a2 k,
    atoms1 !! n = Some a1 ∧ atoms2 !! n = Some a2
    ∧ get_args a1 !! k = Some t ∧ args a2 !! k = Some o.
Proof.
  unfold arg_pairs. rewrite list_elem_of_bind. split.
  - intros ([a1 a2] & Hin & Hz). simpl in Hin.
    apply elem_of_lookup_zip_with in Hz as (n & x & y & Exy & H1 & H2).
    apply elem_of_lookup_zip_with in Hin as (k & x' & y' & Exy' & H3 & H4).
    simplify_eq. by exists n, x, y, k.
  - intros (n & a1 & a2 & k & H1 & H2 & H3 & H4). exists (a1, a2). split.
    + simpl. by eapply elem_of_lookup_zip_with_2.
    + by eapply elem_of_lookup_zip_with_2.
Qed.

(** X5.  A mapping that [get_mapping] returns for pairwise matched atoms is
    a unifier and nothing more: looked up argument by argument in a domain
    fact it gives the arguments of the atom at the same place, and its keys
    are the arguments of the domain facts and no others. *)
Theorem get_mapping_substitution atoms1 atoms2 m :
  Forall2 matched atoms1 atoms2 →
  get_mapping atoms1 atoms2 = Return (Some m) →
  Forall2 (λ a1 a2, (λ t, m !! t) <$> get_args a1 = Some <$> args a2)
    atoms1 atoms2
  ∧ ∀ t, is_Some (m !! t) ↔ ∃ a1, a1 ∈ atoms1 ∧ t ∈ get_args a1.
Proof.
  intros H E. destruct (get_mapping_Some _ _ _ H E) as [_ Hm]. split.
  - apply Forall2_same_length_lookup. split; [by eapply Forall2_length|].
    intros n a1 a2 H1 H2.
    destruct (Forall2_lookup_lr _ _ _ _ _ _ H H1 H2) as [_ Hlen].
    apply list_eq. intros k. rewrite !list_lookup_fmap.
    destruct (get_args a1 !! k) as [t|] eqn:Et; simpl.
    + destruct (lookup_lt_is_Some_2 (args a2) k) as [o Eo].
      { rewrite <-Hlen. by eapply lookup_lt_Some. }
      rewrite Eo. simpl. f_equal. apply Hm, elem_of_arg_pairs.
      by exists n, a1, a2, k.
    + apply lookup_ge_None in Et. rewrite Hlen in Et.
      by rewrite (lookup_ge_None_2 (args a2) k).
  - intros t. split.
    + intros [o Ho]. apply Hm, elem_of_arg_pairs in Ho
        as (n & a1 & a2 & k & H1 & _ & H3 & _).
      exists a1. split; by eapply list_elem_of_lookup_2.
    + intros (a1 & Ha1 & Ht).
      destruct (arg_pairs_covers _ _ _ _ H Ha1 Ht) as [o Ho].
      exists o. by apply Hm.
Qed.

Lemma get_mapping_substitution_witness :
  Forall2 (λ a1 a2,
      (λ t, (<[Param "?y" := "b"]> (<[Param "?x" := "a"]> ∅) : Mapping) !! t)
        <$> get_args a1 = Some <$> args a2)
    [mkFact "Pred" [Param "?x"]; mkFact "Pred2" [Param "?x"; Param "?y"]]
    [mkHead "Pred" ["a"]; mkHead "Pred2" ["a"; "b"]].
Proof.
  assert (H : Forall2 matched
    [mkFact "Pred" [Param "?x"]; mkFact "Pred2" [Param "?x"; Param "?y"]]
    [mkHead "Pred" ["a"]; mkHead "Pred2" ["a"; "b"]]).
  { repeat constructor. }
  exact (proj1 (get_mapping_substitution _ _ _ H eq_refl)).
Defined.

Lemma get_mapping_loop_Raise m (zs : list (Fact * Head)) e :
  get_mapping_loop m zs = Raise e → e = AssertionError.
Proof.
  revert m. induction zs as [|[a1 a2] zs IH]; intros m; simpl; [done|].
  case_decide; [|by intros [= <-]]. unfold safe_zip.
  case_decide; simpl; [|by intros [= <-]].
  destruct (bind_args m _); [apply IH|done].
Qed.

(** X6.  [get_mapping] raises nothing but [AssertionError], and only on
    sequences that are not pairwise matched; sequences of different lengths
    make it raise at once. *)
Theorem get_mapping_raises_assertion atoms1 atoms2 :
  (∀ e, get_mapping atoms1 atoms2 = Raise e →
        e = AssertionError ∧ ¬ Forall2 matched atoms1 atoms2)
  ∧ (length atoms1 ≠ length atoms2 →
     get_mapping atoms1 atoms2 = Raise AssertionError).
Proof.
  split.
  - intros e E. split.
    + revert E. unfold get_mapping, safe_zip. case_decide; simpl.
      * apply get_mapping_loop_Raise.
      * by intros [= <-].
    + intros H. by rewrite (get_mapping_matched _ _ H) in E.
  - intros Hne. unfold get_mapping, safe_zip. by rewrite decide_False.
Qed.

Lemma get_mapping_raises_assertion_witness :
  get_mapping [mkFact "Pred" [Param "?x"]]
              [mkHead "Pred" ["a"]; mkHead "Pred" ["b"]]
  = Raise AssertionError.
Proof.
  apply (proj2 (get_mapping_raises_assertion _ _)). simpl. lia.
Defined.

Lemma get_mapping_loop_app m (zs1 zs2 : list (Fact * Head)) :
  Forall (λ z, matched z.1 z.2) zs1 →
  get_mapping_loop m (zs1 ++ zs2)
  = match bind_args m (z ← zs1; zip (get_args z.1) (args z.2)) with
    | Some m' => get_mapping_loop m' zs2
    | None => Return None
    end.
Proof.
  intros H. revert m. induction H as [|[a1 a2] zs1 [Hp Hl] _ IH]; intros m;
    [done|].
  simpl in *. rewrite decide_True by done. unfold safe_zip.
  rewrite decide_True by done. simpl. rewrite bind_args_app.
  destruct (bind_args m _) as [m1|]; simpl; [apply IH|done].
Qed.

(** X7.  A pair of atoms outside the contract, with another predicate or
    another number of arguments, makes [get_mapping] raise only if
    unification gets that far: when the matched pairs before it are
    consistent it raises [AssertionError], and when they hold a conflict it
    returns failure and the violation goes unnoticed. *)
Theorem get_mapping_violation atoms1 a1 rest1 atoms2 a2 rest2 :
  Forall2 matched atoms1 atoms2 → ¬ matched a1 a2 →
  length rest1 = length rest2 →
  (consistent (arg_pairs atoms1 atoms2) →
   get_mapping (atoms1 ++ a1 :: rest1) (atoms2 ++ a2 :: rest2)
   = Raise AssertionError)
  ∧ (¬ consistent (arg_pairs atoms1 atoms2) →
     get_mapping (atoms1 ++ a1 :: rest1) (atoms2 ++ a2 :: rest2)
     = Return None).
Proof.
  intros H Hn Hlen.
  assert (E : get_mapping (atoms1 ++ a1 :: rest1) (atoms2 ++ a2 :: rest2)
              = match bind_args ∅ (arg_pairs atoms1 atoms2) with
                | Some _ => Raise AssertionError
                | None => Return None
                end).
  { unfold get_mapping, safe_zip.
    rewrite decide_True
      by (rewrite !length_app; simpl; by rewrite (Forall2_length _ _ _ H), Hlen).
    simpl. rewrite zip_with_app by (by eapply Forall2_length). simpl.
    rewrite get_mapping_loop_app.
    2:{ clear -H. induction H; simpl; by constructor. }
    fold (arg_pairs atoms1 atoms2).
    destruct (bind_args ∅ _) as [m|]; [|done]. simpl.
    case_decide as Hp; [|done]. unfold safe_zip.
    case_decide as Hl; [|done]. by destruct Hn. }
  rewrite E. split.
  - intros Hco.
    by destruct (bind_args_is_Some ∅ _ (agrees_empty _) Hco) as [m ->].
  - intros Hco. assert (bind_args ∅ (arg_pairs atoms1 atoms2) = None) as ->;
      [|done].
    apply bind_args_None. by intros [_ ?].
Qed.

Lemma get_mapping_violation_witness :
  get_mapping
    ([mkFact "Pred2" [Param "?x"; Param "?x"]] ++ mkFact "Pred" [Param "?x"] :: [])
    ([mkHead "Pred2" ["a"; "b"]] ++ mkHead "Pred" ["a"; "b"] :: [])
  = Return None.
Proof.
  apply get_mapping_violation.
  - repeat constructor.
  - intros [_ Hl]. discriminate Hl.
  - reflexivity.
  - intros Hco. specialize (Hco (Param "?x") "a" "b").
    assert (E : "a" = "b"); [|discriminate E].
    apply Hco; vm_compute; [by left|right; by left].
Defined.

Lemma getitems_elem (m : Mapping) ps os o :
  getitems m ps = Return os → o ∈ os → ∃ p, p ∈ ps ∧ m !! Param p = Some o.
Proof.
  revert os. induction ps as [|p ps IH]; intros os; simpl.
  - intros [= <-] Ho. by apply elem_of_nil in Ho.
  - unfold getitem at 1. destruct (m !! Param p) as [o'|] eqn:E; simpl; [|done].
    destruct (getitems m ps) as [os'|]; simpl; [|done].
    intros [= <-] [->|Ho]%elem_of_cons.
    + exists p. split; [by left|done].
    + destruct (IH os' eq_refl Ho) as (q & Hq & Hm).
      exists q. split; [by right|done].
Qed.

(** X8.  The engine invents no object: in every state, every input object
    of an enqueued instance is an argument of a known head. *)
Theorem input_objects_are_known ss self si o :
  reachable ss self → si ∈ stream_queue self → o ∈ input_objects si →
  ∃ h, h ∈ atoms self ∧ o ∈ args h.
Proof.
  intros Hs%reachable_sound Hsi%(sound_queue _ _ Hs) Ho.
  destruct (sound_instances _ _ Hs si Hsi)
    as [(_ & _ & Hnil)|(i & st & c & Hi & Hc & E)].
  { rewrite Hnil in Ho. by apply elem_of_nil in Ho. }
  rewrite (sound_streams _ _ Hs) in Hi.
  pose proof (sound_combo _ _ _ _ _ Hs Hi Hc) as Hfa.
  pose proof (slot_ok_matched _ _ _ Hfa) as Hm.
  revert E. unfold combo_instance. rewrite (get_mapping_matched _ _ Hm).
  destruct (bind_args ∅ _) as [m|] eqn:Em; simpl; [|done].
  destruct (getitems m (inputs st)) as [os|] eqn:Eo; simpl; [|done].
  intros [= <-]. simpl in Ho.
  destruct (getitems_elem _ _ _ _ Eo Ho) as (p & _ & Hp).
  apply bind_args_Some in Em as (_ & _ & Hmm).
  apply Hmm in Hp as [Hp|Hp]; [by rewrite lookup_empty in Hp|].
  apply elem_of_arg_pairs in Hp as (n & a1 & a2 & k & H1 & H2 & H3 & H4).
  exists a2. split; [|by eapply list_elem_of_lookup_2].
  destruct (Forall2_lookup_lr _ _ _ _ _ _ Hfa H2 H1) as [? _]. done.
Qed.

Lemma input_objects_are_known_witness :
  ∃ h, h ∈ atoms
         (new_Instantiator [mkEvaluation (mkHead "Obj" ["block1"]) true]
            [mkStream "S1" ["?x"] [mkFact "Obj" [Param "?x"]]]).2
       ∧ "block1" ∈ args h.
Proof.
  apply (input_objects_are_known
           [mkStream "S1" ["?x"] [mkFact "Obj" [Param "?x"]]] _
           (get_instance (mkStream "S1" ["?x"] [mkFact "Obj" [Param "?x"]])
              ["block1"])).
  - apply reachable_new_Instantiator.
  - vm_compute. by left.
  - simpl. by left.
Defined.

(** ** What a run that returns has computed *)

Lemma new_Instantiator_atoms evaluations ss :
  (new_Instantiator evaluations ss).1 = Return tt →
  atoms (new_Instantiator evaluations ss).2 = heads_of evaluations.
Proof.
  rewrite new_Instantiator_eq.
  pose proof (add_atoms_good ss evaluations (init_state ss)
                (sound_init_state ss) (complete_init_state ss)) as H.
  destruct (add_atoms evaluations (init_state ss)) as [[[]|e] s]; [|done].
  intros _. simpl. destruct H as (_ & _ & ->).
  destruct (add_zero_input_instances_spec ss (mkInstantiator ss ∅ [] ∅ ∅))
    as (_ & new & (Heq & _) & _).
  fold (init_state ss) in Heq. rewrite Heq. simpl. set_solver.
Qed.

(** X9.  The incremental search finds what a full join would find: when
    [__init__] returns, the instance set holds the instances of the declared
    streams without inputs and, for every declared stream with a domain,
    the instance of every combination of heads of submitted atoms, one per
    slot and each passing the filter of its slot, that unifies with the
    domain; it holds nothing else. *)
Theorem instances_are_the_full_join ss evaluations si :
  (new_Instantiator evaluations ss).1 = Return tt →
  si ∈ stream_instances (new_Instantiator evaluations ss).2 ↔
  zero_input ss si
  ∨ ∃ st combo,
      st ∈ ss ∧ domain st ≠ []
      ∧ Forall2 (λ h d, h ∈ heads_of evaluations ∧ slot_ok h d = true)
          combo (domain st)
      ∧ combo_instance st combo = Return (Some si).
Proof.
  intros Hr. destruct (new_Instantiator_good _ _ Hr) as [Hs Hc].
  rewrite <-(new_Instantiator_atoms _ _ Hr).
  set (self := (new_Instantiator evaluations ss).2) in *. split.
  - intros Hsi. destruct (sound_instances _ _ Hs si Hsi)
      as [?|(i & st & c & Hi & Hin & E)]; [by left|].
    rewrite (sound_streams _ _ Hs) in Hi.
    assert (Hst : st ∈ ss) by (by eapply list_elem_of_lookup_2).
    destruct (decide (domain st = [])) as [Hd|Hne].
    + left. destruct (combo_instance_empty_domain _ _ _ Hd E) as (<- & ? & ?).
      by split_and!.
    + right. exists st, c. split_and!; [done..| |done].
      by eapply sound_combo.
  - intros [Hz|(st & c & [i Hi]%list_elem_of_lookup & Hne & Hfa & E)].
    + by apply (sound_zero _ _ Hs).
    + pose proof (complete_combo _ _ _ _ _ Hc Hi Hfa) as Hin.
      pose proof (complete_combos _ _ Hc i st c) as H.
      rewrite (sound_streams _ _ Hs), E in H. by apply H.
Qed.

Lemma instances_are_the_full_join_witness :
  get_instance (mkStream "S1" ["?x"] [mkFact "Obj" [Param "?x"]]) ["block1"]
    ∈ stream_instances
        (new_Instantiator [mkEvaluation (mkHead "Obj" ["block1"]) true]
           [mkStream "S1" ["?x"] [mkFact "Obj" [Param "?x"]]]).2.
Proof.
  apply (instances_are_the_full_join
           [mkStream "S1" ["?x"] [mkFact "Obj" [Param "?x"]]]
           [mkEvaluation (mkHead "Obj" ["block1"]) true]); [reflexivity|].
  right. exists (mkStream "S1" ["?x"] [mkFact "Obj" [Param "?x"]]),
    [mkHead "Obj" ["block1"]].
  split_and!; [by left|done| |reflexivity].
  constructor; [|constructor]. split; [|reflexivity].
  apply elem_of_heads_of. eexists. split; [by left|done].
Defined.

(** X10.  Construction and submission compose: when [__init__] returns,
    running [add_atom] over further evaluations leaves what [__init__]
    leaves when it is given all the evaluations at once. *)
Theorem new_Instantiator_app ss evaluations more :
  (new_Instantiator evaluations ss).1 = Return tt →
  new_Instantiator (evaluations ++ more) ss
  = add_atoms more (new_Instantiator evaluations ss).2.
Proof.
  rewrite !new_Instantiator_eq. unfold add_atoms. rewrite for_each_app.
  by destruct (for_each evaluations _ _) as [[[]|e] s].
Qed.

Lemma new_Instantiator_app_witness :
  new_Instantiator
    ([mkEvaluation (mkHead "Obj" ["a"]) true]
     ++ [mkEvaluation (mkHead "Obj" ["b"]) true])
    [mkStream "S1" ["?x"] [mkFact "Obj" [Param "?x"]]]
  = add_atoms [mkEvaluation (mkHead "Obj" ["b"]) true]
      (new_Instantiator [mkEvaluation (mkHead "Obj" ["a"]) true]
         [mkStream "S1" ["?x"] [mkFact "Obj" [Param "?x"]]]).2.
Proof. apply new_Instantiator_app. reflexivity. Defined.

Lemma new_Instantiator_Raise_bad ss evaluations :
  (∃ e, (new_Instantiator evaluations ss).1 = Raise e)
  ↔ bad ss (heads_of evaluations).
Proof.
  rewrite new_Instantiator_eq.
  pose proof (add_atoms_good ss evaluations (init_state ss)
                (sound_init_state ss) (complete_init_state ss)) as H.
  assert (Hat : heads_of evaluations ∪ atoms (init_state ss)
                = heads_of evaluations).
  { destruct (add_zero_input_instances_spec ss (mkInstantiator ss ∅ [] ∅ ∅))
      as (_ & new & (Heq & _) & _).
    fold (init_state ss) in Heq. rewrite Heq. simpl. set_solver. }
  rewrite Hat in H.
  destruct (add_atoms evaluations (init_state ss)) as [[[]|e] s]; simpl.
  - destruct H as (Hs & Hc & Ha). split; [by intros [e ?]|].
    intros Hb. destruct (complete_not_bad ss s Hs Hc). by rewrite Ha.
  - split; [done|]. intros _. by exists e.
Qed.

(** X11.  [__init__] raises exactly when the heads of the submitted atoms
    are [bad] for the declarations: some head has the predicate of a domain
    fact and another number of arguments, or some combination of the heads
    unifies with the domain of a stream and leaves one of its inputs
    unbound.  The order of the evaluations plays no part. *)
Theorem new_Instantiator_raises_iff ss evaluations :
  (∃ e, (new_Instantiator evaluations ss).1 = Raise e)
  ↔ (∃ h stream domain_fact,
       h ∈ heads_of evaluations ∧ stream ∈ ss
       ∧ domain_fact ∈ domain stream ∧ arity_clash h domain_fact)
    ∨ (∃ stream combo e,
         stream ∈ ss ∧ domain stream ≠ []
         ∧ Forall2 (λ h d, h ∈ heads_of evaluations ∧ slot_ok h d = true)
             combo (domain stream)
         ∧ combo_instance stream combo = Raise e).
Proof. apply new_Instantiator_Raise_bad. Qed.

(** X12.  [__init__] returns whenever the declarations meet their grounding
    obligation, every input of a stream being an argument of one of its
    domain facts, and the submitted atoms have the number of arguments of
    the declared domain facts with their predicate. *)
Theorem new_Instantiator_returns ss evaluations :
  grounded ss → arities_agree ss (heads_of evaluations) →
  (new_Instantiator evaluations ss).1 = Return tt.
Proof.
  intros Hg Ha.
  destruct (new_Instantiator evaluations ss).1 as [[]|e] eqn:E; [done|].
  destruct (not_bad ss (heads_of evaluations) Hg Ha).
  apply new_Instantiator_Raise_bad. by exists e.
Qed.

Lemma new_Instantiator_returns_witness :
  (new_Instantiator [mkEvaluation (mkHead "Obj" ["block1"]) true]
     [mkStream "S1" ["?x"] [mkFact "Obj" [Param "?x"]]]).1 = Return tt.
Proof.
  apply new_Instantiator_returns.
  - intros st p ->%list_elem_of_singleton ->%list_elem_of_singleton.
    exists (mkFact "Obj" [Param "?x"]). split; by left.
  - intros h st d Hh ->%list_elem_of_singleton ->%list_elem_of_singleton _.
    apply elem_of_heads_of in Hh as (a & ->%list_elem_of_singleton & _ & <-).
    reflexivity.
Defined.

(** X13.  What [__init__] leaves depends on the set of heads of the
    submitted atoms only, not on their order, their repetitions or the
    values that are not atoms: two lists of evaluations with the same heads
    make it raise both or return both, and then with the same instance set
    and the same known heads. *)
Theorem instances_depend_on_heads ss evaluations1 evaluations2 :
  heads_of evaluations1 = heads_of evaluations2 →
  (∃ e1 e2, (new_Instantiator evaluations1 ss).1 = Raise e1
            ∧ (new_Instantiator evaluations2 ss).1 = Raise e2)
  ∨ ((new_Instantiator evaluations1 ss).1 = Return tt
     ∧ (new_Instantiator evaluations2 ss).1 = Return tt
     ∧ stream_instances (new_Instantiator evaluations1 ss).2
       = stream_instances (new_Instantiator evaluations2 ss).2
     ∧ atoms (new_Instantiator evaluations1 ss).2
       = atoms (new_Instantiator evaluations2 ss).2).
Proof.
  intros Hh.
  pose proof (new_Instantiator_Raise_bad ss evaluations1) as H1.
  pose proof (new_Instantiator_Raise_bad ss evaluations2) as H2.
  rewrite Hh in H1.
  destruct (new_Instantiator evaluations1 ss).1 as [[]|e1] eqn:E1.
  - destruct (new_Instantiator evaluations2 ss).1 as [[]|e2] eqn:E2.
    + right. destruct (new_Instantiator_good _ _ E1) as [Hs1 Hc1].
      destruct (new_Instantiator_good _ _ E2) as [Hs2 Hc2].
      assert (Ha : atoms (new_Instantiator evaluations1 ss).2
                   = atoms (new_Instantiator evaluations2 ss).2).
      { by rewrite !new_Instantiator_atoms. }
      split_and!; [done..| |done]. by apply (good_instances ss).
    + destruct (proj2 H1) as [e ?]; [|done]. apply H2. by exists e2.
  - left. destruct (proj2 H2) as [e2 ?]; [|by exists e1, e2].
    apply H1. by exists e1.
Qed.

Lemma instances_depend_on_heads_witness :
  stream_instances
    (new_Instantiator
       [mkEvaluation (mkHead "Obj" ["a"]) true;
        mkEvaluation (mkHead "Obj" ["a"]) true;
        mkEvaluation (mkHead "Obj" ["b"]) false]
       [mkStream "S1" ["?x"] [mkFact "Obj" [Param "?x"]]]).2
  = stream_instances
    (new_Instantiator [mkEvaluation (mkHead "Obj" ["a"]) true]
       [mkStream "S1" ["?x"] [mkFact "Obj" [Param "?x"]]]).2.
Proof.
  destruct (instances_depend_on_heads
              [mkStream "S1" ["?x"] [mkFact "Obj" [Param "?x"]]]
              [mkEvaluation (mkHead "Obj" ["a"]) true;
               mkEvaluation (mkHead "Obj" ["a"]) true;
               mkEvaluation (mkHead "Obj" ["b"]) false]
              [mkEvaluation (mkHead "Obj" ["a"]) true])
    as [(e1 & e2 & E1 & _)|(_ & _ & H & _)].
  - apply set_eq. intros h. rewrite !elem_of_heads_of. split.
    + intros (a & Ha & Hat & <-). exists a. split; [|done].
      repeat (apply elem_of_cons in Ha as [->|Ha]); try (by left);
        [discriminate Hat|by apply elem_of_nil in Ha].
    + intros (a & ->%list_elem_of_singleton & Hat & <-).
      eexists. split; [by left|done].
  - vm_compute in E1. discriminate E1.
  - exact H.
Defined.

(** ** The index lists of a run that returns *)

Lemma add_atom_index ss self atom :
  sound ss self → complete ss self →
  is_atom atom = true → head atom ∉ atoms self →
  match add_atom atom self with
  | (Return _, self') =>
      ∀ i j, atoms_at self' i j
             = atoms_at self i j
               ++ (if slot_okb ss (head atom) i j then [head atom] else [])
  | (Raise _, _) => True
  end.
Proof.
  intros Hs Hc Ha Hin. rewrite add_atom_eq, Ha. simpl.
  rewrite decide_False by done. rewrite (sound_streams _ _ Hs).
  pose proof (mid_loops ss (head atom) self _
                (mid_start ss (head atom) self Hs Hc)) as H.
  destruct (add_atom_loops _ _ _) as [[[]|e] self']; simpl; [|done].
  destruct H as (_ & _ & Hat & _). intros i j. rewrite Hat. f_equal.
  destruct (slot_okb ss (head atom) i j) eqn:E;
    [|by rewrite andb_false_r].
  unfold slot_okb in E. destruct (ss !! i) eqn:Ei; [|done].
  apply lookup_lt_Some, Nat.ltb_lt in Ei. unfold visited. by rewrite Ei.
Qed.

Lemma add_atoms_index ss evaluations known self :
  sound ss self → complete ss self →
  atoms self = list_to_set known →
  (∀ i j, atoms_at self i j
          = filter (λ h, slot_okb ss h i j = true) known) →
  match add_atoms evaluations self with
  | (Return _, self') =>
      ∀ i j, atoms_at self' i j
             = filter (λ h, slot_okb ss h i j = true)
                 (accepted_from known evaluations)
  | (Raise _, _) => True
  end.
Proof.
  unfold add_atoms. revert known self.
  induction evaluations as [|atom evaluations IH];
    intros known self Hs Hc Ha Hat; [done|].
  rewrite for_each_cons, add_atom_then_ret. simpl.
  destruct (is_atom atom) eqn:Eat; simpl.
  2:{ rewrite add_atom_non_atom by done. simpl. by apply IH. }
  case_bool_decide as Hk.
  2:{ rewrite add_atom_again.
      - simpl. by apply IH.
      - rewrite Ha. by apply elem_of_list_to_set. }
  assert (Hin : head atom ∉ atoms self).
  { rewrite Ha. by rewrite elem_of_list_to_set. }
  pose proof (add_atom_good ss self atom Hs Hc) as Hg.
  pose proof (add_atom_index ss self atom Hs Hc Eat Hin) as Hi.
  pose proof (sound_add_atom ss self atom Hs) as Hs1.
  destruct (add_atom atom self) as [[b|e] self1]; simpl in *; [|done].
  destruct Hg as (Hc1 & Ha1 & _). apply IH; [done..| |].
  - rewrite Ha1, (heads_of_atom _ Eat), Ha, list_to_set_app_L. simpl.
    set_solver.
  - intros i j. rewrite Hi, Hat, filter_app. f_equal.
    rewrite filter_cons, filter_nil.
    destruct (slot_okb ss (head atom) i j) eqn:E;
      [by rewrite decide_True|by rewrite decide_False].
Qed.

Lemma NoDup_accepted_from known evaluations :
  NoDup known → NoDup (accepted_from known evaluations).
Proof.
  revert known. induction evaluations as [|atom evaluations IH];
    intros known Hnd; simpl; [done|].
  destruct (is_atom atom); simpl; [|by apply IH].
  case_bool_decide; [|by apply IH]. apply IH.
  apply NoDup_app. split_and!; [done| |apply NoDup_singleton].
  by intros h Hh ->%list_elem_of_singleton.
Qed.

(** X14.  When [__init__] returns, the index list of a slot is the list of
    the accepted heads that pass the filter of the slot, in the order in
    which they were accepted; no head is in it twice. *)
Theorem index_lists_in_order ss evaluations i j st d :
  (new_Instantiator evaluations ss).1 = Return tt →
  ss !! i = Some st → domain st !! j = Some d →
  atoms_at (new_Instantiator evaluations ss).2 i j
  = filter (λ h, slot_ok h d = true) (accepted evaluations)
  ∧ NoDup (atoms_at (new_Instantiator evaluations ss).2 i j).
Proof.
  rewrite new_Instantiator_eq. intros Hr Hi Hj.
  assert (Hat0 : ∀ i j, atoms_at (init_state ss) i j = []).
  { destruct (add_zero_input_instances_spec ss (mkInstantiator ss ∅ [] ∅ ∅))
      as (_ & new & (Heq & _) & _).
    fold (init_state ss) in Heq. intros i' j'. rewrite Heq.
    unfold atoms_at. simpl. by rewrite lookup_empty. }
  assert (Ha0 : atoms (init_state ss) = list_to_set []).
  { destruct (add_zero_input_instances_spec ss (mkInstantiator ss ∅ [] ∅ ∅))
      as (_ & new & (Heq & _) & _).
    fold (init_state ss) in Heq. by rewrite Heq. }
  pose proof (add_atoms_index ss evaluations [] (init_state ss)
                (sound_init_state ss) (complete_init_state ss) Ha0 Hat0) as H.
  destruct (add_atoms evaluations (init_state ss)) as [[[]|e] s]; [|done].
  simpl. rewrite H. unfold slot_okb. rewrite Hi, Hj.
  split; [done|]. apply NoDup_filter, NoDup_accepted_from. constructor.
Qed.

Lemma index_lists_in_order_witness :
  atoms_at
    (new_Instantiator
       [mkEvaluation (mkHead "Obj" ["b"]) true;
        mkEvaluation (mkHead "Obj" ["a"]) true;
        mkEvaluation (mkHead "Obj" ["b"]) true]
       [mkStream "S1" ["?x"] [mkFact "Obj" [Param "?x"]]]).2 0 0
  = filter (λ h, slot_ok h (mkFact "Obj" [Param "?x"]) = true)
      (accepted
         [mkEvaluation (mkHead "Obj" ["b"]) true;
          mkEvaluation (mkHead "Obj" ["a"]) true;
          mkEvaluation (mkHead "Obj" ["b"]) true]).
Proof.
  apply (index_lists_in_order
           [mkStream "S1" ["?x"] [mkFact "Obj" [Param "?x"]]] _ 0 0
           (mkStream "S1" ["?x"] [mkFact "Obj" [Param "?x"]])
           (mkFact "Obj" [Param "?x"])); reflexivity.
Defined.

(** ** The queue that [__init__] starts from *)

Lemma add_zero_input_instances_queue (l : list Stream) self :
  NoDup l →
  (∀ st, st ∈ l → get_instance st [] ∉ stream_instances self) →
  stream_queue (add_zero_input_instances l self).2
  = stream_queue self
    ++ ((λ st, get_instance st []) <$> filter (λ st, inputs st = []) l).
Proof.
  unfold add_zero_input_instances. revert self.
  induction l as [|st l IH]; intros self Hnd Hnew.
  - simpl. by rewrite app_nil_r.
  - apply NoDup_cons in Hnd as [Hst Hnd]. rewrite for_each_cons.
    case_decide as Hin.
    + rewrite add_instance_then_ret, filter_cons_True by done.
      assert (E : _add_instance st [] self
                  = (Return true,
                     mkInstantiator (streams self)
                       ({[get_instance st []]} ∪ stream_instances self)
                       (stream_queue self ++ [get_instance st []])
                       (atoms self) (atoms_from_domain self))).
      { unfold _add_instance. rewrite decide_False; [done|].
        apply Hnew. by left. }
      rewrite E. simpl snd.
      rewrite IH; [simpl; by rewrite <-app_assoc|done|].
      intros st' Hst'. simpl. rewrite elem_of_union, elem_of_singleton.
      intros [E'|Hin']; [|by apply (Hnew st'); [right|]].
      injection E' as ->. done.
    + unfold ret at 1. rewrite filter_cons_False by done. apply IH; [done|].
      intros st' Hst'. apply Hnew. by right.
Qed.

(** X15.  With no two declarations alike, the queue that [__init__] holds
    before it submits anything is the instances, without input objects, of
    the declared streams without inputs, in the order of the
    declarations. *)
Theorem zero_input_queue ss :
  NoDup ss →
  stream_queue (init_state ss)
  = (λ st, get_instance st []) <$> filter (λ st, inputs st = []) ss.
Proof.
  intros Hnd. unfold init_state.
  rewrite add_zero_input_instances_queue; [done..|].
  intros st _. simpl. set_solver.
Qed.

Lemma zero_input_queue_witness :
  stream_queue
    (init_state [mkStream "first" [] [];
                 mkStream "S1" ["?x"] [mkFact "Obj" [Param "?x"]];
                 mkStream "last" [] [mkFact "Obj" [Const "a"]]])
  = (λ st, get_instance st [])
      <$> filter (λ st, inputs st = [])
            [mkStream "first" [] [];
             mkStream "S1" ["?x"] [mkFact "Obj" [Param "?x"]];
             mkStream "last" [] [mkFact "Obj" [Const "a"]]].
Proof.
  apply zero_input_queue. compute_done.
Defined.

(** ** Growth *)

Lemma grows_refl self : grows self self.
Proof. split_and!; try done. Qed.

Lemma grows_trans self1 self2 self3 :
  grows self1 self2 → grows self2 self3 → grows self1 self3.
Proof.
  intros (H1 & H2 & H3 & H4 & H5) (K1 & K2 & K3 & K4 & K5). split_and!.
  - congruence.
  - set_solver.
  - set_solver.
  - by trans (stream_queue self2).
  - intros i j. by trans (atoms_at self2 i j).
Qed.

Lemma grows_enqueued self self' new :
  enqueued self self' new → grows self self'.
Proof.
  intros (-> & _). split_and!; simpl; [done|done|set_solver| |done].
  by apply prefix_app_r.
Qed.

Lemma grows_domain_append i j head self :
  grows self (domain_append i j head self).
Proof.
  split_and!; simpl; [done..|].
  intros i' j'. rewrite atoms_at_domain_append. case_decide as E; [|done].
  injection E as <- <-. by apply prefix_app_r.
Qed.

Lemma grows_add_atom_slot head i st j d self :
  grows self (add_atom_slot head i st j d self).2.
Proof.
  destruct (slot_ok head d) eqn:Hok.
  - rewrite add_atom_slot_ok by done.
    destruct (add_combinations_spec st
                (product (slot_values (domain_append i j head self)
                            i st j head))
                (domain_append i j head self)) as (new & Hen & _).
    eapply grows_trans; [apply grows_domain_append|].
    by eapply grows_enqueued.
  - destruct (decide (arity_clash head d)).
    + rewrite add_atom_slot_clash by done. apply grows_refl.
    + rewrite add_atom_slot_skip by done. apply grows_refl.
Qed.

Lemma grows_add_atom atom self : grows self (add_atom atom self).2.
Proof.
  rewrite add_atom_eq. destruct (is_atom atom); simpl; [|apply grows_refl].
  case_decide; [apply grows_refl|]. simpl.
  eapply grows_trans with (atoms_add (head atom) self).
  { split_and!; simpl; [done|set_solver|done..]. }
  unfold add_atom_loops.
  apply (for_each_preserves (grows (atoms_add (head atom) self)));
    [|apply grows_refl].
  intros [i st] s _ Hs.
  apply (for_each_preserves (grows (atoms_add (head atom) self))); [|done].
  intros [j d] s1 _ Hs1. eapply grows_trans; [done|].
  apply grows_add_atom_slot.
Qed.

(** X16.  Submission only adds: whatever the state and whatever is
    submitted, and whether the run returns or raises, it leaves the
    declarations as they are, the known heads and the instance set as
    supersets of what they were, and the queue and every index list as
    extensions at the end of what they were.  Nothing is removed, nothing
    reordered. *)
Theorem add_atoms_grows evaluations self :
  grows self (add_atoms evaluations self).2.
Proof.
  unfold add_atoms. apply (for_each_preserves (grows self)); [|apply grows_refl].
  intros atom s _ Hs. rewrite add_atom_then_ret. simpl.
  eapply grows_trans; [done|]. apply grows_add_atom.
Qed.

(** ** The triggering fact *)

(** X17.  Whatever the state, an instance that a call of [add_atom] puts
    in the queue comes from a combination of heads, for a declared stream,
    that contains the head just submitted. *)
Theorem new_instances_use_the_new_head self atom si :
  si ∈ stream_queue (add_atom atom self).2 → si ∉ stream_queue self →
  ∃ i st combo,
    streams self !! i = Some st ∧ head atom ∈ combo
    ∧ combo_instance st combo = Return (Some si).
Proof.
  intros Hsi Hnew.
  assert (H : ∀ si, si ∈ stream_queue (add_atom atom self).2 →
            si ∈ stream_queue self
            ∨ ∃ i st combo,
                streams self !! i = Some st ∧ head atom ∈ combo
                ∧ combo_instance st combo = Return (Some si));
    [|by destruct (H si Hsi)].
  clear si Hsi Hnew.
  rewrite add_atom_eq. destruct (is_atom atom); simpl; [|by left].
  case_decide; [by left|]. simpl. unfold add_atom_loops.
  apply (for_each_preserves
           (λ s, ∀ si, si ∈ stream_queue s →
              si ∈ stream_queue self
              ∨ ∃ i st combo,
                  streams self !! i = Some st ∧ head atom ∈ combo
                  ∧ combo_instance st combo = Return (Some si)));
    [|by left].
  intros [i st] s Hi%elem_of_enumerate Hs.
  apply (for_each_preserves
           (λ s, ∀ si, si ∈ stream_queue s →
              si ∈ stream_queue self
              ∨ ∃ i st combo,
                  streams self !! i = Some st ∧ head atom ∈ combo
                  ∧ combo_instance st combo = Return (Some si)));
    [|done].
  intros [j d] s1 Hj%elem_of_enumerate Hs1.
  destruct (slot_ok (head atom) d) eqn:Hok.
  - rewrite add_atom_slot_ok by done.
    destruct (add_combinations_spec st
                (product (slot_values (domain_append i j (head atom) s1)
                            i st j (head atom)))
                (domain_append i j (head atom) s1))
      as (new & (-> & _) & Hfrom & _).
    simpl. intros si [Hold|Hin]%elem_of_app; [by apply Hs1|].
    right. destruct (Hfrom si Hin) as (c & Hc & E).
    exists i, st, c. split_and!; [done| |done].
    apply elem_of_product_slot_values in Hc as [Hlen Hc].
    destruct (lookup_lt_is_Some_2 c j) as [h Hh].
    { rewrite Hlen. by eapply lookup_lt_Some. }
    specialize (Hc j h Hh). rewrite decide_False in Hc by (by intros ?).
    subst h. by eapply list_elem_of_lookup_2.
  - destruct (decide (arity_clash (head atom) d)).
    + by rewrite add_atom_slot_clash.
    + by rewrite add_atom_slot_skip.
Qed.

Lemma new_instances_use_the_new_head_witness :
  ∃ i st combo,
    streams (new_Instantiator [mkEvaluation (mkHead "Pred" ["a"]) true]
               [mkStream "s" ["?x"; "?y"]
                  [mkFact "Pred" [Param "?x"];
                   mkFact "Pred2" [Param "?x"; Param "?y"]]]).2 !! i
    = Some st
    ∧ head (mkEvaluation (mkHead "Pred2" ["a"; "b"]) true) ∈ combo
    ∧ combo_instance st combo
      = Return (Some (get_instance
                        (mkStream "s" ["?x"; "?y"]
                           [mkFact "Pred" [Param "?x"];
                            mkFact "Pred2" [Param "?x"; Param "?y"]])
                        ["a"; "b"])).
Proof.
  apply new_instances_use_the_new_head.
  - vm_compute. by left.
  - vm_compute. intros H. by apply elem_of_nil in H.
Defined.

(** * [examples/drake/run.py]: stepping through trajectories *)

Lemma omap_all_None {A B} (f : A → option B) (l : list A) :
  (∀ x, x ∈ l → f x = None) → omap f l = [].
Proof.
  induction l as [|x l IH]; intros H; [done|]. simpl.
  rewrite (H x) by (by left). apply IH. intros y Hy. apply H. by right.
Qed.

Lemma every_endpoints {A} (first : A) middle last :
  every (S (length middle)) (first :: middle ++ [last]) = [first; last].
Proof.
  unfold every. simpl length. rewrite length_app. simpl length.
  replace (S (length middle + 1)) with (S (S (length middle))) by lia.
  simpl seq. simpl omap.
  rewrite Nat.add_0_r.
  rewrite (list_lookup_middle middle [] last (length middle)) by done.
  f_equal. f_equal. apply omap_all_None.
  intros i [Hi _]%elem_of_seq. apply lookup_ge_None.
  simpl. rewrite length_app. simpl. nia.
Qed.

Lemma extended_slice_endpoints {A} (first : A) middle last :
  extended_slice (first :: middle ++ [last])
    (Z.of_nat (length (first :: middle ++ [last])) - 1)
  = Sliced [first; last].
Proof.
  replace (Z.of_nat (length (first :: middle ++ [last])) - 1)%Z
    with (Z.pos (Pos.of_nat (S (length middle)))).
  2:{ simpl length. rewrite length_app. simpl length. lia. }
  unfold extended_slice. rewrite Nat2Pos.id by done.
  by rewrite every_endpoints.
Qed.

(** X18.  The slice [path[::len(path) - 1]] with which [step_trajectories]
    teleports: a path of two or more configurations is cut down to its first
    and its last, the empty path stays empty, and a path of one
    configuration makes the slice raise [ValueError], its step being
    zero. *)
Theorem teleport_slice {A} :
  extended_slice (@nil A) (Z.of_nat (length (@nil A)) - 1) = Sliced []
  ∧ (∀ x : A, extended_slice [x] (Z.of_nat (length [x]) - 1) = ValueError)
  ∧ (∀ (first : A) middle last,
       extended_slice (first :: middle ++ [last])
         (Z.of_nat (length (first :: middle ++ [last])) - 1)
       = Sliced [first; last]).
Proof.
  split_and!; [done|done|apply extended_slice_endpoints].
Qed.

Lemma endpoints_long {A} (p : list A) :
  2 ≤ length p →
  ∃ first middle last, p = first :: middle ++ [last]
                       ∧ endpoints p = [first; last].
Proof.
  destruct p as [|first p]; simpl; [lia|]. intros Hlen.
  destruct p as [|y p _] using rev_ind; simpl in *; [lia|].
  exists first, p, y. split; [done|]. unfold endpoints. simpl.
  rewrite length_app. simpl.
  replace (length p + 1 - 0) with (S (length p)) by lia. simpl.
  by rewrite drop_app_length.
Qed.

Section stepping.
Context {Conf Other Time : Type}.
Implicit Types (iterate : Trajectory Conf Other → nat)
  (trajectories : list (Trajectory Conf Other)) (time_step : option Time).

Lemma step_loop_events iterate trajectories time_step teleport e :
  e ∈ (step_loop iterate trajectories time_step teleport).1.1 →
  e ∈ step_events time_step.
Proof.
  induction trajectories as [|traj trajectories IH]; simpl.
  - intros H. by apply elem_of_nil in H.
  - destruct (if teleport then _ else _) as [p|]; simpl.
    2:{ intros H. by apply elem_of_nil in H. }
    destruct (step_loop iterate trajectories time_step teleport)
      as [[events trajs] returned]. simpl in *.
    intros [H|H]%elem_of_app; [|by apply IH].
    apply list_elem_of_join in H as (l & He & Hl).
    by apply elem_of_replicate in Hl as [-> _].
Qed.

Lemma step_loop_no_teleport iterate trajectories time_step :
  step_loop iterate trajectories time_step false
  = (t ← trajectories; mjoin (replicate (iterate t) (step_events time_step)),
     trajectories, true).
Proof.
  induction trajectories as [|[p o] trajectories IH]; [done|].
  simpl. by rewrite IH.
Qed.

Lemma count_Publish_step iterate time_step (t : Trajectory Conf Other) :
  length (filter (λ e, is_Publish e = true)
            (mjoin (replicate (iterate t) (step_events time_step))))
  = iterate t.
Proof.
  induction (iterate t) as [|n IH]; [done|].
  rewrite replicate_S.
  change (mjoin (step_events time_step
                 :: replicate n (step_events time_step)))
    with (step_events time_step
          ++ mjoin (replicate n (step_events time_step))).
  rewrite filter_app, length_app, IH.
  unfold step_events. rewrite filter_cons_True by done.
  rewrite filter_cons_False; [done|]. by destruct time_step.
Qed.



End stepping.


